(** * tunes.py: search, pick and display tunes from thesession.org

    A shallow embedding of [tunes.py] and the properties of its three
    stages: fetching and extracting records, the picker protocol, and the
    conversion pipeline.

    Python [str] values are lists of code points, the library calls that
    touch the outside world (requests, subprocess) are events of a call
    log, and exceptions are values of [exn] threaded by a small monad. *)

From Stdlib Require Import String Ascii List ZArith NArith Bool Lia.
Import ListNotations.

Set Implicit Arguments.

(** ** Python built-ins used by the script *)

Module Py.

(** A [str] is a sequence of Unicode code points. *)
Definition char := N.
Definition str := list char.

(** A string literal of the source, for literals that are plain ASCII. *)
Definition lit (s : string) : str := map N_of_ascii (list_ascii_of_string s).

Definition NL : char := 10%N.
Definition COLON : char := 58%N.

(** [a == b] on strings *)
Fixpoint str_eqb (a b : str) : bool :=
  match a, b with
  | [], [] => true
  | x :: a', y :: b' => (x =? y)%N && str_eqb a' b'
  | _, _ => false
  end.

(** [str.isspace] for one character: the code points CPython's
    [_PyUnicode_IsWhitespace] accepts. *)
Definition isspace (c : char) : bool :=
  (((9 <=? c) && (c <=? 13)) || ((28 <=? c) && (c <=? 32))
   || (c =? 133) || (c =? 160) || (c =? 5760)
   || ((8192 <=? c) && (c <=? 8202))
   || (c =? 8232) || (c =? 8233) || (c =? 8239) || (c =? 8287)
   || (c =? 12288))%N.

Fixpoint lstrip_with (p : char -> bool) (s : str) : str :=
  match s with
  | [] => []
  | c :: r => if p c then lstrip_with p r else s
  end.

Definition rstrip_with (p : char -> bool) (s : str) : str :=
  rev (lstrip_with p (rev s)).

Definition strip_with (p : char -> bool) (s : str) : str :=
  rstrip_with p (lstrip_with p s).

(** [s.strip()] *)
Definition strip (s : str) : str := strip_with isspace s.

(** [s.strip(chars)] *)
Definition strip_chars (chars : str) (s : str) : str :=
  strip_with (fun c => existsb (N.eqb c) chars) s.

(** [s.split(sep)] for a separator of one character, the only use in the
    script. The result is never empty: [''.split(':') == ['']]. *)
Fixpoint split (sep : char) (s : str) : list str :=
  match s with
  | [] => [[]]
  | c :: r =>
      if (c =? sep)%N then [] :: split sep r
      else match split sep r with
           | [] => [[c]]
           | h :: t => (c :: h) :: t
           end
  end.

(** [sep.join(l)] *)
Fixpoint join (sep : str) (l : list str) : str :=
  match l with
  | [] => []
  | x :: r =>
      match r with
      | [] => x
      | _ :: _ => x ++ sep ++ join sep r
      end
  end.

(** [l[i]] on a list: a negative index counts from the end; [None] stands
    for [IndexError]. *)
Definition getitem (A : Type) (l : list A) (i : Z) : option A :=
  let n := Z.of_nat (length l) in
  if (i <? 0)%Z
  then if (0 <=? i + n)%Z then nth_error l (Z.to_nat (i + n)) else None
  else nth_error l (Z.to_nat i).

(** [zip(a, b, c)]: stops at the shortest argument. *)
Fixpoint zip3 (A B C : Type) (a : list A) (b : list B) (c : list C)
  : list (A * B * C) :=
  match a, b, c with
  | x :: a', y :: b', z :: c' => (x, y, z) :: zip3 a' b' c'
  | _, _, _ => []
  end.

(** [int(s)] in base 10. White space around the numeral is dropped, one
    sign is allowed, then decimal digits with single underscores between
    digits; [None] stands for [ValueError].

    White space for [int] is not that of [strip]: below 127 it is the six
    characters of C's [isspace] (9 to 13 and 32, so not 28 to 31), and from
    127 on it is that of [isspace]. *)
Definition int_space (c : char) : bool :=
  (((9 <=? c) && (c <=? 13)) || (c =? 32) || ((127 <=? c) && isspace c))%N.

(** The digits [int] reads are the decimal digits of Unicode. Apart from
    the ASCII ones they come in runs of ten, zero to nine; these are the
    zeros of the runs in Unicode 14.0, the table of CPython 3.11. *)
Definition decimal_zeros : list N :=
  [1632; 1776; 1984; 2406; 2534; 2662; 2790; 2918; 3046; 3174; 3302; 3430;
   3558; 3664; 3792; 3872; 4160; 4240; 6112; 6160; 6470; 6608; 6784; 6800;
   6992; 7088; 7232; 7248; 42528; 43216; 43264; 43472; 43504; 43600; 44016;
   65296; 66720; 68912; 69734; 69872; 69942; 70096; 70384; 70736; 70864;
   71248; 71360; 71472; 71904; 72016; 72784; 73040; 73120; 92768; 92864;
   93008; 120782; 120792; 120802; 120812; 120822; 123200; 123632; 125264;
   130032]%N.

Definition digit (c : char) : option Z :=
  if ((48 <=? c) && (c <=? 57))%N then Some (Z.of_N (c - 48))
  else match find (fun z => (z <=? c) && (c <=? z + 9))%N decimal_zeros with
       | Some z => Some (Z.of_N (c - z))
       | None => None
       end.

Fixpoint int_digits (acc : Z) (after_digit : bool) (s : str) : option Z :=
  match s with
  | [] => if after_digit then Some acc else None
  | c :: r =>
      if (c =? 95)%N
      then if after_digit then int_digits acc false r else None
      else match digit c with
           | Some d => int_digits (10 * acc + d) true r
           | None => None
           end
  end.

Definition int (s : str) : option Z :=
  let t := strip_with int_space s in
  match t with
  | [] => None
  | c :: r =>
      if (c =? 45)%N then option_map Z.opp (int_digits 0 false r)
      else if (c =? 43)%N then int_digits 0 false r
      else int_digits 0 false t
  end.

(** [str(k)] for an integer: the decimal numeral the picker prints. *)
Fixpoint N_digits (fuel : nat) (n : N) (acc : str) : str :=
  match fuel with
  | O => acc
  | S f =>
      let acc' := (48 + n mod 10)%N :: acc in
      if (n / 10 =? 0)%N then acc' else N_digits f (n / 10) acc'
  end.

Definition N_to_str (n : N) : str := N_digits (S (N.to_nat (N.log2 n))) n [].

Definition Z_to_str (k : Z) : str :=
  if (k <? 0)%Z then 45%N :: N_to_str (Z.abs_N k) else N_to_str (Z.abs_N k).

(** [format] of a field that may be [None]. *)
Definition format_opt (o : option str) : str :=
  match o with
  | Some s => s
  | None => lit "None"
  end.

End Py.
Import Py.

(** ** Data model *)

Definition bytes := list Byte.byte.

(** [Tune = namedtuple('Tune', ('name', 'id', 'type'))] *)
Record Tune := mkTune {
  tune_name : str;
  tune_id : str;
  tune_type : str
}.

(** [TuneSetting = namedtuple('TuneSetting', ('id', 'meter', 'key', 'abc'))];
    [None] is Python's [None]. *)
Record TuneSetting := mkTuneSetting {
  setting_id : option str;
  setting_meter : option str;
  setting_key : option str;
  setting_abc : str
}.

(** The part of a [requests.Response] the script reads. *)
Record Response := mkResponse {
  status_code : Z;
  content : bytes
}.

(** ** Exceptions and the call log *)

Inductive exn :=
| HTTPError (status : Z)
| IndexError
| ValueError (msg : str)
| SearchException (query : str)
| SystemExit (code : Z).

(** Where a child process's stream is connected: [subprocess.PIPE], left
    alone, or the standard input of the process with a given handle. *)
Inductive Redirect :=
| PIPE
| Inherit
| StdinOf (p : nat).

(** One entry per call that leaves the script. *)
Inductive Event :=
| Get (url : str)
| FromString (markup : bytes)
| Run (cmd : list str) (input : str)
| Popen (cmd : list str) (stdin stdout : Redirect)
| Communicate (p : nat) (input : option bytes)
| CloseStdin (p : nat).

(** What the script takes from outside: the pure library functions it
    calls, the site and the picker. The site and the picker answer from
    the calls made so far and the request. Every call is taken to return:
    a connection that fails, a body that lxml refuses to parse and a
    program that is not installed are outside the model. *)
Record World := mkWorld {
  Tree : Type;
  (* lxml.html.fromstring *)
  fromstring : bytes -> Tree;
  (* tree.xpath(q) for a query that selects text or attribute values *)
  xpath_text : Tree -> str -> list str;
  (* tree.xpath(q) for a query that selects elements, each element given
     by its text_content() *)
  xpath_text_content : Tree -> str -> list str;
  (* s.encode('utf-8') *)
  encode_utf8 : str -> bytes;
  (* requests.get(url) *)
  requests_get : list Event -> str -> Response;
  (* subprocess.run(cmd, input=..., stdout=PIPE, encoding='utf-8'):
     return code and standard output *)
  subprocess_run : list Event -> list str -> str -> Z * str
}.

(** Result of a computation: a value, an exception on its way up, or a
    loop still running when the fuel ran out. *)
Inductive outcome (A : Type) :=
| Return (a : A)
| Raise (e : exn)
| Pending.
Arguments Raise {A} e.
Arguments Pending {A}.

Definition obind (A B : Type) (c : outcome A) (k : A -> outcome B) : outcome B :=
  match c with
  | Return a => k a
  | Raise e => Raise e
  | Pending => Pending
  end.

Notation "'let!' x ':=' c 'in' k" := (obind c (fun x => k))
  (at level 10, x name, c at level 200, k at level 200).

(** A computation reads and extends the call log. *)
Definition M (A : Type) := list Event -> outcome A * list Event.

Definition ret (A : Type) (a : A) : M A := fun tr => (Return a, tr).

Definition bind (A B : Type) (c : M A) (k : A -> M B) : M B :=
  fun tr =>
    match c tr with
    | (Return a, tr') => k a tr'
    | (Raise e, tr') => (Raise e, tr')
    | (Pending, tr') => (Pending, tr')
    end.

Definition raise (A : Type) (e : exn) : M A := fun tr => (Raise e, tr).
Arguments raise {A} e.

Definition lift (A : Type) (o : outcome A) : M A := fun tr => (o, tr).

Notation "x <- c ;; k" := (bind c (fun x => k))
  (at level 61, c at next level, right associativity).
Notation "c ;; k" := (bind c (fun _ => k))
  (at level 61, right associativity).

(** [try: c  except SearchException as se: h(se.query)] *)
Definition try_except_SearchException (A : Type) (c : M A) (h : str -> M A) : M A :=
  fun tr =>
    match c tr with
    | (Raise (SearchException q), tr') => h q tr'
    | r => r
    end.

(** [l[i]] and [int(s)] with their exceptions. *)
Definition subscript (A : Type) (l : list A) (i : Z) : outcome A :=
  match getitem l i with
  | Some x => Return x
  | None => Raise IndexError
  end.

Definition int_of (s : str) : outcome Z :=
  match int s with
  | Some k => Return k
  | None => Raise (ValueError (lit "invalid literal for int() with base 10"))
  end.

(** ** Constants of the script *)

Definition PDF_VIEWER_CMD : list str := [lit "zathura"; lit "-"].
Definition PS2PDF_CMD : list str := [lit "ps2pdf"; lit "-"; lit "-"].
Definition ABC2PS_CMD : list str := [lit "abcm2ps"; lit "-"; lit "-O"; lit "-"].

(** [TUNES_EP.format(tune_id=...)] and [SEARCH_EP.format(query=...)] *)
Definition TUNES_EP (tune_id : str) : str :=
  lit "https://thesession.org/tunes/" ++ tune_id.
Definition SEARCH_EP (query : str) : str :=
  lit "https://thesession.org/tunes/search?type=&mode=&q=" ++ query.
Definition POPULAR_TUNES_EP : str := lit "https://thesession.org/tunes/popular".

Definition POPULAR_BASE_XPATH : str :=
  lit "descendant::span[@class='manifest-item-title']".
Definition POPULAR_NAME_XPATH : str :=
  join (lit "/") [POPULAR_BASE_XPATH; lit "a[@data-tuneid]/text()"].
Definition POPULAR_ID_XPATH : str :=
  join (lit "/") [POPULAR_BASE_XPATH; lit "a/@data-tuneid"].
Definition POPULAR_TYPE_XPATH : str :=
  join (lit "/") [POPULAR_BASE_XPATH; lit "a[@class='detail']/text()"].

Definition SEARCH_BASE_XPATH : str :=
  lit "descendant::li[@class='manifest-item']".
Definition SEARCH_NAME_XPATH : str :=
  join (lit "/") [SEARCH_BASE_XPATH; lit "a[@data-tuneid]/text()"].
Definition SEARCH_ID_XPATH : str :=
  join (lit "/") [SEARCH_BASE_XPATH; lit "a/@data-tuneid"].
Definition SEARCH_TYPE_XPATH : str :=
  join (lit "/")
    [SEARCH_BASE_XPATH; lit "span[@class='manifest-item-title detail']/text()"].

Definition BASE_SETTING_XPATH : str :=
  lit "descendant::div[@class='setting-abc']/div[@class='notes']".

Definition ROFI_TUNE_PROMPT : str := lit "tune: ".
Definition TUNE_PREFIX : str := [9835%N].
Definition ROFI_SETTING_PROMPT : str := lit "setting: ".
Definition SETTING_PREFIX : str := [9836%N].

(** ** The script *)

(** The variables of the inner loop of [get_tune_settings]. *)
Record Scan := mkScan {
  s_id : option str;
  s_meter : option str;
  s_key : option str;
  s_abc : list str
}.

Definition scan_init : Scan := mkScan None None None [].

(** Body of [for line in element.text_content().split('\n')]. *)
Definition scan_line (st : Scan) (line : str) : outcome Scan :=
  match line with
  | [] => Return st
  | _ :: _ =>
      let ls := split COLON line in
      let! k := subscript ls 0 in
      let! st' :=
        (if str_eqb k (lit "X") then
           let! v := subscript ls 1 in
           Return (mkScan (Some (strip v)) (s_meter st) (s_key st) (s_abc st))
         else if str_eqb k (lit "M") then
           let! v := subscript ls 1 in
           Return (mkScan (s_id st) (Some (strip v)) (s_key st) (s_abc st))
         else if str_eqb k (lit "K") then
           let! v := subscript ls 1 in
           Return (mkScan (s_id st) (s_meter st) (Some (strip v)) (s_abc st))
         else Return st) in
      Return (mkScan (s_id st') (s_meter st') (s_key st') (s_abc st' ++ [line]))
  end.

Fixpoint scan_lines (lines : list str) (st : Scan) : outcome Scan :=
  match lines with
  | [] => Return st
  | line :: rest => let! st' := scan_line st line in scan_lines rest st'
  end.

(** Body of [for element in elements], from the element's text content to
    the setting appended to [settings]. *)
Definition parse_setting (text_content : str) : outcome TuneSetting :=
  let! st := scan_lines (split NL text_content) scan_init in
  Return (mkTuneSetting (s_id st) (s_meter st) (s_key st) (join [NL] (s_abc st))).

Fixpoint parse_settings (elements : list str) : outcome (list TuneSetting) :=
  match elements with
  | [] => Return []
  | element :: rest =>
      let! setting := parse_setting element in
      let! settings := parse_settings rest in
      Return (setting :: settings)
  end.

Definition tune_of (elem : str * str * str) : Tune :=
  let '(n, i, t) := elem in mkTune n i t.

(** [resp.raise_for_status()] of requests: [HTTPError] for a client or
    server error status, 400 to 599, and nothing otherwise. *)
Definition raise_for_status (resp : Response) : M unit :=
  if ((400 <=? status_code resp) && (status_code resp <? 600))%Z
  then raise (HTTPError (status_code resp))
  else ret tt.

Definition format_tune (tune : Tune) : str :=
  TUNE_PREFIX ++ lit " " ++ tune_name tune ++ lit " [" ++ tune_type tune ++ lit "]".

Definition _format_tunes (tunes : list Tune) : str :=
  join [NL] (map format_tune tunes).

Definition format_setting (setting : TuneSetting) : str :=
  SETTING_PREFIX ++ lit " (" ++ format_opt (setting_id setting) ++ lit ") "
    ++ format_opt (setting_key setting) ++ lit " "
    ++ format_opt (setting_meter setting).

Definition _format_settings (settings : list TuneSetting) : str :=
  join [NL] (map format_setting settings).

Definition tune_rofi_command : list str :=
  [lit "rofi"; lit "-dmenu"; lit "-i"; lit "-format"; lit "i:s"; lit "-p";
   ROFI_TUNE_PROMPT].

Definition setting_rofi_command : list str :=
  [lit "rofi"; lit "-dmenu"; lit "-i"; lit "-format"; lit "i:s"; lit "-p";
   ROFI_SETTING_PROMPT].

(** [select_tune] after [subprocess.run] has returned. *)
Definition decode_tune (tunes : list Tune) (returncode : Z) (stdout : str)
  : outcome Tune :=
  if negb (returncode =? 0)%Z then Raise (SystemExit returncode)
  else
    let rofi_output := split COLON stdout in
    let! s0 := subscript rofi_output 0 in
    let! index := int_of s0 in
    if (index <? 0)%Z then
      let! q := subscript rofi_output 1 in
      Raise (SearchException q)
    else subscript tunes index.

(** [select_setting] after [subprocess.run] has returned. *)
Definition decode_setting (settings : list TuneSetting) (returncode : Z)
  (stdout : str) : outcome TuneSetting :=
  if negb (returncode =? 0)%Z then Raise (SystemExit returncode)
  else
    let rofi_output := split COLON stdout in
    let! s0 := subscript rofi_output 0 in
    let! index := int_of s0 in
    if (index <? 0)%Z then
      Raise (ValueError (lit "Must select a valid setting!"))
    else subscript settings index.

Section Script.

Variable w : World.

Definition get (url : str) : M Response :=
  fun tr => (Return (requests_get w tr url), tr ++ [Get url]).

(** [html.fromstring(markup)], for a body that lxml parses: an empty or
    blank body, on which lxml raises [ParserError], is outside the
    model. *)
Definition html_fromstring (markup : bytes) : M (Tree w) :=
  fun tr => (Return (fromstring w markup), tr ++ [FromString markup]).

Definition run (cmd : list str) (input : str) : M (Z * str) :=
  fun tr => (Return (subprocess_run w tr cmd input), tr ++ [Run cmd input]).

(** [subprocess.Popen(cmd, stdin=..., stdout=...)], for a program that can
    be started: the handle of the new process is its position in the call
    log. A missing program, on which [Popen] raises, is outside the
    model. *)
Definition popen (cmd : list str) (stdin stdout : Redirect) : M nat :=
  fun tr => (Return (List.length tr), tr ++ [Popen cmd stdin stdout]).

(** [p.communicate(input=...)]: sends the input, closes the standard input
    of [p] and waits for [p]. *)
Definition communicate (p : nat) (input : option bytes) : M unit :=
  fun tr => (Return tt, tr ++ [Communicate p input]).

(** [p.stdin.close()] *)
Definition close_stdin (p : nat) : M unit :=
  fun tr => (Return tt, tr ++ [CloseStdin p]).

Definition get_popular_tunes : M (list Tune) :=
  resp <- get POPULAR_TUNES_EP ;;
  raise_for_status resp ;;
  tree <- html_fromstring (content resp) ;;
  ret (map tune_of (zip3 (xpath_text w tree POPULAR_NAME_XPATH)
                         (xpath_text w tree POPULAR_ID_XPATH)
                         (xpath_text w tree POPULAR_TYPE_XPATH))).

Definition get_search_tunes (query : str) : M (list Tune) :=
  resp <- get (SEARCH_EP query) ;;
  raise_for_status resp ;;
  tree <- html_fromstring (content resp) ;;
  ret (map tune_of (zip3 (xpath_text w tree SEARCH_NAME_XPATH)
                         (xpath_text w tree SEARCH_ID_XPATH)
                         (map (strip_chars [NL])
                              (xpath_text w tree SEARCH_TYPE_XPATH)))).

Definition get_tune_settings (tune_id : str) : M (list TuneSetting) :=
  resp <- get (TUNES_EP tune_id) ;;
  raise_for_status resp ;;
  tree <- html_fromstring (content resp) ;;
  lift (parse_settings (xpath_text_content w tree BASE_SETTING_XPATH)).

Definition select_tune (tunes : list Tune) : M Tune :=
  let input_str := _format_tunes tunes in
  rofi_result <- run tune_rofi_command input_str ;;
  lift (decode_tune tunes (fst rofi_result) (snd rofi_result)).

Definition select_setting (settings : list TuneSetting) : M TuneSetting :=
  let input_str := _format_settings settings in
  rofi_result <- run setting_rofi_command input_str ;;
  lift (decode_setting settings (fst rofi_result) (snd rofi_result)).

Definition display_abc (abc : str) : M unit :=
  pdf_viewer <- popen PDF_VIEWER_CMD PIPE Inherit ;;
  ps2pdf <- popen PS2PDF_CMD PIPE (StdinOf pdf_viewer) ;;
  abcm2ps <- popen ABC2PS_CMD PIPE (StdinOf ps2pdf) ;;
  communicate abcm2ps (Some (encode_utf8 w abc)) ;;
  communicate ps2pdf None ;;
  close_stdin pdf_viewer.

(** The [while not tune] loop of [search_and_display]. A [Tune] is a tuple
    of three fields and so is true: the loop ends at the first tune that
    [select_tune] returns, and runs again on [SearchException]. *)
Fixpoint search_loop (fuel : nat) (query : str) : M Tune :=
  match fuel with
  | O => lift Pending
  | S fuel' =>
      try_except_SearchException
        (tunes <- get_search_tunes query ;; select_tune tunes)
        (fun se_query => search_loop fuel' se_query)
  end.

Definition search_and_display (fuel : nat) (query : str) : M unit :=
  tune <- search_loop fuel query ;;
  settings <- get_tune_settings (tune_id tune) ;;
  setting <- select_setting settings ;;
  display_abc (setting_abc setting).

(** [__main__]: [sys.argv[1:]] joined by spaces is the first query. *)
Definition main (fuel : nat) (argv : list str) : M unit :=
  search_and_display fuel (join (lit " ") (tl argv)).

End Script.

(** ** A small world to run the script in

    One response for every request, fixed answers for the name, id and
    type queries and for the notes query, and a picker that reads its
    replies from a script, one per run. *)

Definition byte_of (n : N) : Byte.byte :=
  match Byte.of_N n with
  | Some b => b
  | None => Byte.x00
  end.

Definition utf8_char (c : char) : bytes :=
  (if c <? 128 then [byte_of c]
   else if c <? 2048 then [byte_of (192 + c / 64); byte_of (128 + c mod 64)]
   else if c <? 65536 then
     [byte_of (224 + c / 4096); byte_of (128 + (c / 64) mod 64);
      byte_of (128 + c mod 64)]
   else
     [byte_of (240 + c / 262144); byte_of (128 + (c / 4096) mod 64);
      byte_of (128 + (c / 64) mod 64); byte_of (128 + c mod 64)])%N.

Definition utf8 (s : str) : bytes := flat_map utf8_char s.

Fixpoint count_runs (tr : list Event) : nat :=
  match tr with
  | [] => O
  | Run _ _ :: tr' => S (count_runs tr')
  | _ :: tr' => count_runs tr'
  end.

Definition sample_world (resp : Response) (names ids types notes : list str)
  (replies : list (Z * str)) : World :=
  @mkWorld bytes (fun markup => markup)
    (fun _ q =>
       if str_eqb q POPULAR_NAME_XPATH || str_eqb q SEARCH_NAME_XPATH then names
       else if str_eqb q POPULAR_ID_XPATH || str_eqb q SEARCH_ID_XPATH then ids
       else if str_eqb q POPULAR_TYPE_XPATH || str_eqb q SEARCH_TYPE_XPATH then types
       else [])
    (fun _ q => if str_eqb q BASE_SETTING_XPATH then notes else [])
    utf8
    (fun _ _ => resp)
    (fun tr _ _ => nth (count_runs tr) replies (1%Z, [])).

(** The body of the sample responses. The sample parser is the identity:
    what the queries find is fixed by the world, not read from the body. *)
Definition sample_markup : bytes :=
  utf8 (lit "<html><body><div>tunes</div></body></html>").

Definition ok_response : Response := mkResponse 200 sample_markup.

(** ** Vocabulary of the statements *)

(** The two pages that list tunes. *)
Inductive Listing :=
| Popular
| Search (query : str).

Definition listing_url (l : Listing) : str :=
  match l with
  | Popular => POPULAR_TUNES_EP
  | Search query => SEARCH_EP query
  end.

Definition get_tunes (w : World) (l : Listing) : M (list Tune) :=
  match l with
  | Popular => get_popular_tunes w
  | Search query => get_search_tunes w query
  end.

Definition name_xpath (l : Listing) : str :=
  match l with
  | Popular => POPULAR_NAME_XPATH
  | Search _ => SEARCH_NAME_XPATH
  end.

Definition id_xpath (l : Listing) : str :=
  match l with
  | Popular => POPULAR_ID_XPATH
  | Search _ => SEARCH_ID_XPATH
  end.

Definition type_xpath (l : Listing) : str :=
  match l with
  | Popular => POPULAR_TYPE_XPATH
  | Search _ => SEARCH_TYPE_XPATH
  end.

(** What each page does to a type before it enters the record. *)
Definition type_cleanup (l : Listing) (s : str) : str :=
  match l with
  | Popular => s
  | Search _ => strip_chars [NL] s
  end.

(** The document a fetch of [url] parses, from the call log [tr]. *)
Definition page (w : World) (tr : list Event) (url : str) : Tree w :=
  fromstring w (content (requests_get w tr url)).

(** A status [raise_for_status] lets through. *)
Definition passes (resp : Response) : Prop :=
  ~ (400 <= status_code resp < 600)%Z.

Definition nonempty (s : str) : bool :=
  match s with
  | [] => false
  | _ :: _ => true
  end.

Definition is_digit (c : char) : Prop := (48 <= c <= 57)%N.

(** The characters of a numeral: a minus sign or digits. *)
Definition numeral_char (c : char) : Prop := c = 45%N \/ is_digit c.

(** The results of the three queries of a listing page. *)
Definition query_names (w : World) (l : Listing) (tr : list Event) : list str :=
  xpath_text w (page w tr (listing_url l)) (name_xpath l).

Definition query_ids (w : World) (l : Listing) (tr : list Event) : list str :=
  xpath_text w (page w tr (listing_url l)) (id_xpath l).

Definition query_types (w : World) (l : Listing) (tr : list Event) : list str :=
  xpath_text w (page w tr (listing_url l)) (type_xpath l).

(** A search page with one tune whose type is rendered between newlines. *)
Definition cooley_world : World :=
  sample_world ok_response [lit "Cooley's"] [lit "50"]
    [NL :: lit "reel" ++ [NL]] [] [].

(** A page on which the three queries find 3, 2 and 1 values. *)
Definition ragged_world : World :=
  sample_world ok_response
    [lit "Cooley's"; lit "Drowsy Maggie"; lit "The Kesh"]
    [lit "50"; lit "23"] [lit "reel"] [] [].

(** A page on which the three queries find two values each. *)
Definition two_tunes_world : World :=
  sample_world ok_response
    [lit "Cooley's"; lit "Drowsy Maggie"] [lit "50"; lit "23"]
    [lit "reel"; lit "reel" ++ [NL]] [] [].

(** What a fetch function owes its caller, for the request [url] and the
    extraction [extract] that follows it: an [HTTPError] exactly for a
    status from 400 to 599; in that case one GET and nothing else; and
    otherwise one GET, then the body of the response, as received, parsed
    and given to [extract]. *)
Definition fetch_contract (A : Type) (w : World) (url : str)
  (extract : Tree w -> outcome A) (op : M A) (tr : list Event) : Prop :=
  ((exists status, fst (op tr) = Raise (HTTPError status))
   <-> (400 <= status_code (requests_get w tr url) < 600)%Z) /\
  ((400 <= status_code (requests_get w tr url) < 600)%Z ->
   op tr = (Raise (HTTPError (status_code (requests_get w tr url))),
            tr ++ [Get url])) /\
  (passes (requests_get w tr url) ->
   op tr = (extract (fromstring w (content (requests_get w tr url))),
            tr ++ [Get url; FromString (content (requests_get w tr url))])).

Definition extract_popular (w : World) (tree : Tree w) : outcome (list Tune) :=
  Return (map tune_of (zip3 (xpath_text w tree POPULAR_NAME_XPATH)
                            (xpath_text w tree POPULAR_ID_XPATH)
                            (xpath_text w tree POPULAR_TYPE_XPATH))).

Definition extract_search (w : World) (tree : Tree w) : outcome (list Tune) :=
  Return (map tune_of (zip3 (xpath_text w tree SEARCH_NAME_XPATH)
                            (xpath_text w tree SEARCH_ID_XPATH)
                            (map (strip_chars [NL])
                                 (xpath_text w tree SEARCH_TYPE_XPATH)))).

Definition extract_settings (w : World) (tree : Tree w)
  : outcome (list TuneSetting) :=
  parse_settings (xpath_text_content w tree BASE_SETTING_XPATH).

(** A site that answers 300 Multiple Choices, a status that requests
    neither follows as a redirect nor counts as an error. *)
Definition multiple_choices_world : World :=
  sample_world (mkResponse 300 sample_markup) [] [] [] [] [].

(** [line] is a header line for [key] with value [v]: the text before its
    first colon is [key], and the field after that colon, stripped, is
    [v]. *)
Definition header_line (key v line : str) : Prop :=
  exists x rest, split COLON line = key :: x :: rest /\ strip x = v.

(** A parsed field is backed by the notation when its value, if any, is
    the value of a header line kept in the notation. *)
Definition backed (field : option str) (key : str) (abc : list str) : Prop :=
  forall v, field = Some v ->
            exists line, In line abc /\ header_line key v line.

Definition scan_backed (st : Scan) : Prop :=
  backed (s_id st) (lit "X") (s_abc st) /\
  backed (s_meter st) (lit "M") (s_abc st) /\
  backed (s_key st) (lit "K") (s_abc st).

(** The text of a line after its first colon. *)
Fixpoint after_first_colon (line : str) : str :=
  match line with
  | [] => []
  | c :: r => if (c =? COLON)%N then r else after_first_colon r
  end.

(** A line that is the name of a header and nothing else. *)
Definition bare_header (line : str) : Prop :=
  line = lit "X" \/ line = lit "M" \/ line = lit "K".

(** A block with a blank line between header and tune. *)
Definition blank_line_block : str :=
  lit "X:1" ++ [NL; NL] ++ lit "A B c d|".

(** A key line that carries a comment with a colon. *)
Definition commented_key_line : str := lit "K:Edor % key: E dorian".

(** A site whose tune page has one notation block: a header line and a
    line made of the letter K alone. *)
Definition bare_key_world : World :=
  sample_world ok_response [] [] [] [lit "X:1" ++ [NL] ++ lit "K"] [].

(** [requeries w q tr q' tr' n]: from the query [q] and the call log [tr],
    [n] rounds of the search loop, each ended by a [SearchException] of
    [select_tune], lead to the query [q'] and the call log [tr']. *)
Inductive requeries (w : World)
  : str -> list Event -> str -> list Event -> nat -> Prop :=
| requeries_none (q : str) (tr : list Event) : requeries w q tr q tr 0
| requeries_round (q q1 q' : str) (tr tr1 tr2 tr' : list Event)
    (tunes : list Tune) (n : nat) :
    get_search_tunes w q tr = (Return tunes, tr1) ->
    select_tune w tunes tr1 = (Raise (SearchException q1), tr2) ->
    requeries w q1 tr2 q' tr' n ->
    requeries w q tr q' tr' (S n).

(** The two tunes of scenario A and two settings of one tune. *)
Definition cooleys : Tune := mkTune (lit "Cooley's") (lit "50") (lit "reel").
Definition drowsy_maggie : Tune :=
  mkTune (lit "Drowsy Maggie") (lit "23") (lit "reel").

Definition edor_setting : TuneSetting :=
  mkTuneSetting (Some (lit "1")) (Some (lit "4/4")) (Some (lit "Edor"))
    (join [NL] [lit "X:1"; lit "M:4/4"; lit "K:Edor"; lit "A B c d|"]).
Definition dmaj_setting : TuneSetting :=
  mkTuneSetting (Some (lit "2")) (Some (lit "4/4")) (Some (lit "Dmaj"))
    (join [NL] [lit "X:2"; lit "M:4/4"; lit "K:Dmaj"; lit "d c B A|"]).

(** A search page with the two tunes, a tune page with the two settings,
    and a picker that follows the script [replies]. *)
Definition session_world (replies : list (Z * str)) : World :=
  sample_world ok_response
    [tune_name cooleys; tune_name drowsy_maggie]
    [tune_id cooleys; tune_id drowsy_maggie]
    [tune_type cooleys; tune_type drowsy_maggie]
    [setting_abc edor_setting; setting_abc dmaj_setting]
    replies.

(** ** Vocabulary of the further properties *)

Definition newline_free (s : str) : Prop := ~ In NL s.

(** A setting none of whose parsed fields holds a newline. *)
Definition fields_newline_free (setting : TuneSetting) : Prop :=
  forall v,
    setting_id setting = Some v \/ setting_meter setting = Some v
    \/ setting_key setting = Some v ->
    newline_free v.

(** The text of a line before its first colon: [line.split(':')[0]]. *)
Definition before_first_colon (line : str) : str := hd [] (split COLON line).

(** An event that starts a process. *)
Definition spawns (e : Event) : bool :=
  match e with
  | Popen _ _ _ => true
  | _ => false
  end.

(** A computation that only adds to the call log and starts no process. *)
Definition quiet (A : Type) (c : M A) : Prop :=
  forall tr, exists ext, snd (c tr) = tr ++ ext /\ existsb spawns ext = false.

(** A tune page with three notation blocks: one with all three headers,
    one without any header, one with two key lines. *)
Definition three_blocks_world (replies : list (Z * str)) : World :=
  sample_world ok_response
    [tune_name cooleys; tune_name drowsy_maggie]
    [tune_id cooleys; tune_id drowsy_maggie]
    [NL :: tune_type cooleys ++ [NL]; tune_type drowsy_maggie]
    [setting_abc edor_setting;
     lit "A B c d|" ++ [NL; NL] ++ lit "d c B A|";
     join [NL] [lit "K:Dmaj"; lit "d c B A|"; lit "K: Edor "]]
    replies.

(** A site on which every request fails with 503. *)
Definition unavailable_world (replies : list (Z * str)) : World :=
  sample_world (mkResponse 503 sample_markup)
    [tune_name cooleys] [tune_id cooleys] [tune_type cooleys] [] replies.

(** A site that finds no tune and no setting. *)
Definition empty_world (replies : list (Z * str)) : World :=
  sample_world ok_response [] [] [] [] replies.

(** The part of [search_and_display] that comes before [display_abc]: the
    search loop, the fetch of the tune page and the selection of a
    setting. *)
Definition select_setting_for (w : World) (fuel : nat) (query : str)
  : M TuneSetting :=
  tune <- search_loop w fuel query ;;
  settings <- get_tune_settings w (tune_id tune) ;;
  select_setting w settings.

(** ** Runs on concrete inputs *)

Example split_header : split COLON (lit "K:Edor") = [lit "K"; lit "Edor"].
Proof. reflexivity. Qed.

Example split_empty : split COLON [] = [[]].
Proof. reflexivity. Qed.

Example int_minus_one : int (lit "-1") = Some (-1)%Z.
Proof. reflexivity. Qed.

Example int_padded : int (lit " 1_000 ") = Some 1000%Z.
Proof. reflexivity. Qed.

Example int_rejects_sign_only : int (lit "-") = None.
Proof. reflexivity. Qed.

(** [int('\x1c1')] is a [ValueError], though [strip] removes U+001C. *)
Example int_keeps_file_separator :
  int [28%N; 49%N] = None /\ strip [28%N; 49%N] = lit "1".
Proof. split; reflexivity. Qed.

(** [int] reads the Arabic-Indic digits one and two, between no-break
    spaces, as 12. *)
Example int_reads_unicode_digits :
  int [160%N; 1633%N; 95%N; 1634%N; 160%N] = Some 12%Z.
Proof. reflexivity. Qed.

Example str_of_int : Z_to_str (-1203) = lit "-1203".
Proof. reflexivity. Qed.

Example getitem_wraps : getitem [1; 2; 3] (-1) = Some 3.
Proof. reflexivity. Qed.

Example strip_newlines :
  strip_chars [NL] (NL :: lit "reel" ++ [NL]) = lit "reel".
Proof. reflexivity. Qed.

(** Scenario B of the specification: one block of four lines. *)
Example scenario_B :
  parse_setting (join [NL] [lit "X:1"; lit "M:4/4"; lit "K:Edor"; lit "A B c d|"])
  = Return (mkTuneSetting (Some (lit "1")) (Some (lit "4/4")) (Some (lit "Edor"))
              (join [NL] [lit "X:1"; lit "M:4/4"; lit "K:Edor"; lit "A B c d|"])).
Proof. reflexivity. Qed.

(** Scenario A of the specification: the second of two tunes is picked. *)
Example scenario_A :
  let tunes := [mkTune (lit "Cooley's") (lit "50") (lit "reel");
                mkTune (lit "Drowsy Maggie") (lit "23") (lit "reel")] in
  decode_tune tunes 0 (lit "1:Drowsy Maggie")
  = Return (mkTune (lit "Drowsy Maggie") (lit "23") (lit "reel")).
Proof. reflexivity. Qed.

(** ** Facts about the built-ins *)

Lemma str_eqb_eq (a b : str) : str_eqb a b = true <-> a = b.
Proof.
  revert b; induction a as [|x a IH]; intros [|y b]; simpl;
    try (split; intro H; congruence).
  rewrite andb_true_iff, N.eqb_eq, IH.
  split; [intros [-> ->]; reflexivity | intro H; inversion H; auto].
Qed.

Lemma str_eqb_refl (a : str) : str_eqb a a = true.
Proof. apply str_eqb_eq; reflexivity. Qed.

Lemma split_not_nil (sep : char) (s : str) : split sep s <> [].
Proof.
  destruct s as [|c r]; simpl; [discriminate|].
  destruct (c =? sep)%N; [discriminate|].
  destruct (split sep r); discriminate.
Qed.

(** A string without the separator is one piece. *)
Lemma split_no_sep (sep : char) (s : str) :
  ~ In sep s -> split sep s = [s].
Proof.
  induction s as [|c r IH]; simpl; intro H; [reflexivity|].
  destruct (N.eqb_spec c sep) as [->|_]; [tauto|].
  rewrite IH by tauto. reflexivity.
Qed.

(** The first piece ends at the first separator. *)
Lemma split_app_sep (sep : char) (a b : str) :
  ~ In sep a -> split sep (a ++ sep :: b) = a :: split sep b.
Proof.
  induction a as [|c r IH]; simpl; intro H.
  - rewrite N.eqb_refl. reflexivity.
  - destruct (N.eqb_spec c sep) as [->|_]; [tauto|].
    rewrite IH by tauto. reflexivity.
Qed.

(** No piece contains the separator. *)
Lemma split_pieces_no_sep (sep : char) (s : str) :
  Forall (fun piece => ~ In sep piece) (split sep s).
Proof.
  induction s as [|c r IH]; simpl.
  - constructor; [tauto | constructor].
  - destruct (N.eqb_spec c sep) as [->|Hne].
    + constructor; [tauto | exact IH].
    + destruct (split sep r) as [|h t]; inversion IH; subst;
        constructor; auto; simpl; intuition congruence.
Qed.

(** Joining pieces that are free of the separator and splitting again
    gives the pieces back, for at least one piece. *)
Lemma split_join (sep : char) (l : list str) :
  l <> [] -> Forall (fun piece => ~ In sep piece) l ->
  split sep (join [sep] l) = l.
Proof.
  induction l as [|x r IH]; intros Hne Hall; [congruence|].
  inversion Hall as [|? ? Hx Hr]; subst.
  destruct r as [|y r'].
  - simpl. apply split_no_sep; assumption.
  - change (join [sep] (x :: y :: r')) with (x ++ sep :: join [sep] (y :: r')).
    rewrite split_app_sep by assumption.
    rewrite IH by (auto; discriminate). reflexivity.
Qed.

Lemma zip3_length (A B C : Type) (a : list A) (b : list B) (c : list C) :
  List.length (zip3 a b c)
  = Nat.min (List.length a) (Nat.min (List.length b) (List.length c)).
Proof.
  revert b c; induction a as [|x a IH]; intros [|y b] [|z c]; simpl;
    try lia.
  rewrite IH. lia.
Qed.

Lemma zip3_nth (A B C : Type) (a : list A) (b : list B) (c : list C)
  (da : A) (db : B) (dc : C) (i : nat) :
  (i < List.length (zip3 a b c))%nat ->
  nth_error (zip3 a b c) i = Some (nth i a da, nth i b db, nth i c dc).
Proof.
  revert b c i; induction a as [|x a IH]; intros [|y b] [|z c] i; simpl;
    try lia.
  destruct i as [|i]; simpl; [reflexivity|].
  intro H. apply IH. lia.
Qed.

Lemma getitem_in_range (A : Type) (l : list A) (i : Z) :
  (0 <= i < Z.of_nat (List.length l))%Z ->
  exists x, getitem l i = Some x /\ nth_error l (Z.to_nat i) = Some x.
Proof.
  intro H. unfold getitem.
  destruct (Z.ltb_spec i 0); [lia|].
  destruct (nth_error l (Z.to_nat i)) as [x|] eqn:E; [eauto|].
  apply nth_error_None in E. lia.
Qed.

Lemma getitem_beyond (A : Type) (l : list A) (i : Z) :
  (Z.of_nat (List.length l) <= i)%Z -> getitem l i = None.
Proof.
  intro H. unfold getitem.
  destruct (Z.ltb_spec i 0); [lia|].
  apply nth_error_None. lia.
Qed.

(** *** [int(str(k)) == k] *)

Lemma digit_char (d : N) :
  (d < 10)%N ->
  (48 + d =? 95)%N = false /\ digit (48 + d)%N = Some (Z.of_N d)
  /\ is_digit (48 + d)%N.
Proof.
  intro H. unfold digit, is_digit. repeat split; try lia.
  - apply N.eqb_neq. lia.
  - destruct (N.leb_spec 48 (48 + d)); [|lia].
    destruct (N.leb_spec (48 + d) 57); [|lia].
    cbn [andb]. f_equal. lia.
Qed.

Lemma N_digits_S (f : nat) (n : N) (acc : str) :
  N_digits (S f) n acc
  = if (n / 10 =? 0)%N then (48 + n mod 10)%N :: acc
    else N_digits f (n / 10) ((48 + n mod 10)%N :: acc).
Proof. reflexivity. Qed.

Lemma int_digits_cons_digit (a : Z) (b : bool) (d : N) (r : str) :
  (d < 10)%N ->
  int_digits a b ((48 + d)%N :: r) = int_digits (10 * a + Z.of_N d) true r.
Proof.
  intro H. destruct (digit_char H) as (H95 & Hdig & _).
  cbn [int_digits]. rewrite H95, Hdig. reflexivity.
Qed.

Lemma N_digits_all_digits (f : nat) (n : N) (acc : str) :
  Forall is_digit acc -> Forall is_digit (N_digits f n acc).
Proof.
  revert n acc; induction f as [|f IH]; intros n acc H; [exact H|].
  assert (Hd : is_digit (48 + n mod 10)%N).
  { apply digit_char. apply N.mod_lt. discriminate. }
  rewrite N_digits_S.
  destruct (n / 10 =? 0)%N; [|apply IH]; constructor; assumption.
Qed.

Lemma N_digits_not_nil (f : nat) (n : N) (acc : str) :
  acc <> [] -> N_digits f n acc <> [].
Proof.
  revert n acc; induction f as [|f IH]; intros n acc H; [exact H|].
  rewrite N_digits_S.
  destruct (n / 10 =? 0)%N; [|apply IH]; discriminate.
Qed.

Lemma int_digits_N_digits (f : nat) (n : N) (acc : str) (b : bool) :
  (n < 2 ^ N.of_nat f)%N -> (0 < f)%nat ->
  int_digits 0 b (N_digits f n acc) = int_digits (Z.of_N n) true acc.
Proof.
  revert n acc b; induction f as [|f IH]; intros n acc b Hn Hf; [lia|].
  assert (Hm : (n mod 10 < 10)%N) by (apply N.mod_lt; discriminate).
  pose proof (N.div_mod n 10 ltac:(discriminate)) as Hdm.
  rewrite N_digits_S.
  destruct (N.eqb_spec (n / 10) 0) as [Hz|Hnz].
  - rewrite int_digits_cons_digit by assumption. f_equal. lia.
  - assert (Hlt : (n / 10 < 2 ^ N.of_nat f)%N).
    { apply N.Div0.div_lt_upper_bound.
      rewrite Nat2N.inj_succ, N.pow_succ_r' in Hn. lia. }
    assert (Hf' : (0 < f)%nat).
    { destruct f; [simpl in Hlt; lia | lia]. }
    rewrite IH by assumption.
    rewrite int_digits_cons_digit by assumption. f_equal. lia.
Qed.

Lemma N_to_str_fuel (n : N) : (n < 2 ^ N.of_nat (S (N.to_nat (N.log2 n))))%N.
Proof.
  rewrite Nat2N.inj_succ, N2Nat.id.
  destruct n as [|p]; [reflexivity|].
  apply N.log2_spec. reflexivity.
Qed.

Lemma int_digits_N_to_str (n : N) (b : bool) :
  int_digits 0 b (N_to_str n) = Some (Z.of_N n).
Proof.
  unfold N_to_str. rewrite int_digits_N_digits; [reflexivity | | lia].
  apply N_to_str_fuel.
Qed.

Lemma N_to_str_digits (n : N) : Forall is_digit (N_to_str n).
Proof. apply N_digits_all_digits. constructor. Qed.

Lemma N_to_str_head (n : N) :
  exists c r, N_to_str n = c :: r /\ is_digit c.
Proof.
  pose proof (N_to_str_digits n) as H.
  destruct (N_to_str n) as [|c r] eqn:E.
  - exfalso. revert E. unfold N_to_str. rewrite N_digits_S.
    destruct (n / 10 =? 0)%N; [discriminate|].
    apply N_digits_not_nil. discriminate.
  - inversion H; subst. eauto.
Qed.

Lemma Z_to_str_chars (k : Z) : Forall numeral_char (Z_to_str k).
Proof.
  assert (H : Forall numeral_char (N_to_str (Z.abs_N k))).
  { eapply Forall_impl; [|apply N_to_str_digits]. intros c Hc; right; exact Hc. }
  unfold Z_to_str. destruct (k <? 0)%Z; [constructor; [left; reflexivity|]|]; exact H.
Qed.

Lemma numeral_char_not_space (c : char) : numeral_char c -> isspace c = false.
Proof.
  intros [->|[H1 H2]]; [reflexivity|].
  unfold isspace.
  repeat match goal with
         | |- context [(?a <=? ?b)%N] => destruct (N.leb_spec a b); try lia
         | |- context [(?a =? ?b)%N] => destruct (N.eqb_spec a b); try lia
         end; reflexivity.
Qed.

Lemma numeral_char_not_colon (s : str) : Forall numeral_char s -> ~ In COLON s.
Proof.
  intros H Hin. rewrite Forall_forall in H. specialize (H _ Hin).
  unfold numeral_char, is_digit, COLON in H. lia.
Qed.

Lemma lstrip_with_id (p : char -> bool) (s : str) :
  Forall (fun c => p c = false) s -> lstrip_with p s = s.
Proof. intro H. destruct H as [|c r Hc _]; simpl; [|rewrite Hc]; reflexivity. Qed.

Lemma strip_with_id (p : char -> bool) (s : str) :
  Forall (fun c => p c = false) s -> strip_with p s = s.
Proof.
  intro H. unfold strip_with, rstrip_with.
  rewrite (@lstrip_with_id p s H).
  rewrite lstrip_with_id; [apply rev_involutive|].
  apply Forall_rev. exact H.
Qed.

Lemma numeral_char_not_int_space (c : char) :
  numeral_char c -> int_space c = false.
Proof.
  intros [->|[H1 H2]]; [reflexivity|].
  unfold int_space.
  destruct (N.leb_spec 9 c); destruct (N.leb_spec c 13);
    destruct (N.eqb_spec c 32); destruct (N.leb_spec 127 c);
    try lia; reflexivity.
Qed.

Lemma int_strip_numeral (k : Z) : strip_with int_space (Z_to_str k) = Z_to_str k.
Proof.
  apply strip_with_id. eapply Forall_impl; [|apply Z_to_str_chars].
  apply numeral_char_not_int_space.
Qed.

Lemma strip_numeral (k : Z) : strip (Z_to_str k) = Z_to_str k.
Proof.
  apply strip_with_id. eapply Forall_impl; [|apply Z_to_str_chars].
  apply numeral_char_not_space.
Qed.

(** Reading back the numeral of [k] gives [k]. *)
Lemma int_Z_to_str (k : Z) : int (Z_to_str k) = Some k.
Proof.
  unfold int. rewrite int_strip_numeral. unfold Z_to_str.
  destruct (Z.ltb_spec k 0) as [Hneg|Hpos].
  - rewrite N.eqb_refl, int_digits_N_to_str. simpl. f_equal. lia.
  - destruct (N_to_str_head (Z.abs_N k)) as (c & r & E & [Hc1 Hc2]).
    pose proof (int_digits_N_to_str (Z.abs_N k) false) as Hint.
    rewrite E in *.
    destruct (N.eqb_spec c 45); [lia|].
    destruct (N.eqb_spec c 43); [lia|].
    rewrite Hint. f_equal. lia.
Qed.

(** ** Fetching *)

(** The two comparisons [raise_for_status] makes on a status. *)
Ltac status_cases s :=
  destruct (Z.leb_spec 400 s); destruct (Z.ltb_spec s 600);
  try reflexivity; try lia.

Lemma raise_for_status_passes (resp : Response) (tr : list Event) :
  passes resp -> raise_for_status resp tr = (Return tt, tr).
Proof.
  unfold passes, raise_for_status. intro H. status_cases (status_code resp).
Qed.

Lemma raise_for_status_raises (resp : Response) (tr : list Event) :
  (400 <= status_code resp < 600)%Z ->
  raise_for_status resp tr = (Raise (HTTPError (status_code resp)), tr).
Proof.
  unfold raise_for_status. intro H. status_cases (status_code resp).
Qed.

Lemma get_tunes_passes (w : World) (l : Listing) (tr : list Event) :
  passes (requests_get w tr (listing_url l)) ->
  get_tunes w l tr
  = (Return (map tune_of
               (zip3 (xpath_text w (page w tr (listing_url l)) (name_xpath l))
                     (xpath_text w (page w tr (listing_url l)) (id_xpath l))
                     (map (type_cleanup l)
                          (xpath_text w (page w tr (listing_url l)) (type_xpath l))))),
     tr ++ [Get (listing_url l);
            FromString (content (requests_get w tr (listing_url l)))]).
Proof.
  intro H.
  destruct l as [|query]; unfold get_tunes, get_popular_tunes, get_search_tunes,
    bind, get, html_fromstring, ret, page; cbn [listing_url] in *;
    rewrite (raise_for_status_passes _ H), <- app_assoc; cbn [type_cleanup];
    try rewrite map_id; reflexivity.
Qed.

Lemma nth_error_tunes (a b c : list str) (i : nat) :
  (i < List.length (zip3 a b c))%nat ->
  nth_error (map tune_of (zip3 a b c)) i
  = Some (mkTune (nth i a []) (nth i b []) (nth i c [])).
Proof.
  intro H. rewrite nth_error_map, (zip3_nth a b c [] [] [] H). reflexivity.
Qed.

Lemma nth_map_cleanup (f : str -> str) (l : list str) (i : nat) :
  (i < List.length l)%nat -> nth i (map f l) [] = f (nth i l []).
Proof.
  intro H. rewrite (nth_indep _ [] (f [])) by (rewrite length_map; exact H).
  apply map_nth.
Qed.

(** ** Extraction of tune lists *)

(** C10. When the three query results differ in length, the listing
    functions do not raise and do not pad: after a fetch that passes, they
    return as many records as the shortest result has elements, the i-th
    record built from the i-th name, the i-th id and the i-th type (the
    search page with its newlines stripped). *)
Theorem get_tunes_stops_at_shortest (w : World) (l : Listing) (tr : list Event) :
  passes (requests_get w tr (listing_url l)) ->
  exists tunes,
    fst (get_tunes w l tr) = Return tunes /\
    List.length tunes
    = Nat.min (List.length (query_names w l tr))
        (Nat.min (List.length (query_ids w l tr))
                 (List.length (query_types w l tr))) /\
    forall i,
      (i < List.length tunes)%nat ->
      nth_error tunes i
      = Some (mkTune (nth i (query_names w l tr) [])
                     (nth i (query_ids w l tr) [])
                     (type_cleanup l (nth i (query_types w l tr) []))).
Proof.
  intro H. rewrite (get_tunes_passes w l tr H). cbn [fst].
  eexists; split; [reflexivity|].
  fold (query_names w l tr) (query_ids w l tr) (query_types w l tr).
  rewrite length_map, zip3_length, length_map.
  split; [reflexivity|].
  intros i Hi.
  rewrite nth_error_tunes by (rewrite zip3_length, length_map; exact Hi).
  rewrite nth_map_cleanup by lia. reflexivity.
Qed.

Lemma get_tunes_stops_at_shortest_witness :
  passes (requests_get ragged_world [] (listing_url Popular)) /\
  exists tunes,
    fst (get_tunes ragged_world Popular []) = Return tunes /\
    List.length tunes
    = Nat.min (List.length (query_names ragged_world Popular []))
        (Nat.min (List.length (query_ids ragged_world Popular []))
                 (List.length (query_types ragged_world Popular []))) /\
    forall i,
      (i < List.length tunes)%nat ->
      nth_error tunes i
      = Some (mkTune (nth i (query_names ragged_world Popular []) [])
                     (nth i (query_ids ragged_world Popular []) [])
                     (type_cleanup Popular
                        (nth i (query_types ragged_world Popular []) []))).
Proof.
  assert (H : passes (requests_get ragged_world [] (listing_url Popular))).
  { unfold passes. simpl. lia. }
  split; [exact H|].
  exact (get_tunes_stops_at_shortest ragged_world Popular [] H).
Defined.

Example ragged_listing :
  fst (get_tunes ragged_world Popular [])
  = Return [mkTune (lit "Cooley's") (lit "50") (lit "reel")].
Proof. reflexivity. Qed.

(** C1, as the code has it. When the three query results have the same
    length N, a listing function returns, after a fetch that passes,
    exactly N records in document order; the i-th record has the i-th
    name and the i-th id, and as type the i-th type: as found on the
    popular page, with leading and trailing newlines removed on the
    search page. *)
Theorem get_tunes_equal_lengths (w : World) (l : Listing) (tr : list Event)
  (N : nat) :
  passes (requests_get w tr (listing_url l)) ->
  List.length (query_names w l tr) = N ->
  List.length (query_ids w l tr) = N ->
  List.length (query_types w l tr) = N ->
  exists tunes,
    fst (get_tunes w l tr) = Return tunes /\
    List.length tunes = N /\
    forall i,
      (i < N)%nat ->
      nth_error tunes i
      = Some (mkTune (nth i (query_names w l tr) [])
                     (nth i (query_ids w l tr) [])
                     (type_cleanup l (nth i (query_types w l tr) []))).
Proof.
  intros H Hn Hi Ht. rewrite (get_tunes_passes w l tr H). cbn [fst].
  eexists; split; [reflexivity|].
  fold (query_names w l tr) (query_ids w l tr) (query_types w l tr).
  assert (Hlen : List.length
                   (zip3 (query_names w l tr) (query_ids w l tr)
                         (map (type_cleanup l) (query_types w l tr))) = N).
  { rewrite zip3_length, length_map. lia. }
  rewrite length_map. split; [exact Hlen|].
  intros i Hlt.
  rewrite nth_error_tunes by lia.
  rewrite nth_map_cleanup by lia. reflexivity.
Qed.

Lemma get_tunes_equal_lengths_witness :
  exists tunes,
    fst (get_tunes two_tunes_world (Search (lit "reel")) []) = Return tunes /\
    List.length tunes = 2%nat /\
    forall i,
      (i < 2)%nat ->
      nth_error tunes i
      = Some (mkTune
                (nth i (query_names two_tunes_world (Search (lit "reel")) []) [])
                (nth i (query_ids two_tunes_world (Search (lit "reel")) []) [])
                (type_cleanup (Search (lit "reel"))
                   (nth i (query_types two_tunes_world (Search (lit "reel")) [])
                      []))).
Proof.
  apply (get_tunes_equal_lengths two_tunes_world (Search (lit "reel")) []
           (N := 2)); [unfold passes; simpl; lia | reflexivity ..].
Defined.

(** C1 as stated fails on the search page: the three queries find one
    value each, and the type of the record is not the value the type query
    found. *)
Lemma search_type_differs_from_query_result :
  List.length (query_names cooley_world (Search (lit "cooley")) []) = 1%nat /\
  List.length (query_ids cooley_world (Search (lit "cooley")) []) = 1%nat /\
  List.length (query_types cooley_world (Search (lit "cooley")) []) = 1%nat /\
  fst (get_search_tunes cooley_world (lit "cooley") [])
  = Return [mkTune (lit "Cooley's") (lit "50") (lit "reel")] /\
  nth 0 (query_types cooley_world (Search (lit "cooley")) []) []
  = NL :: lit "reel" ++ [NL] /\
  lit "reel" <> NL :: lit "reel" ++ [NL].
Proof. repeat split; try reflexivity. discriminate. Qed.

(** ** Scanning a notation block *)

Lemma subscript_head (A : Type) (x : A) (l : list A) :
  subscript (x :: l) 0 = Return x.
Proof. reflexivity. Qed.

Lemma subscript_raises (A : Type) (l : list A) (i : Z) (e : exn) :
  subscript l i = Raise e -> e = IndexError.
Proof. unfold subscript. destruct (getitem l i); congruence. Qed.

Lemma subscript_not_pending (A : Type) (l : list A) (i : Z) :
  subscript l i <> Pending.
Proof. unfold subscript. destruct (getitem l i); discriminate. Qed.

(** One line either fails with [IndexError] or keeps the line, when it is
    not empty, at the end of the notation. *)
Lemma scan_line_cases (st : Scan) (line : str) :
  scan_line st line = Raise IndexError \/
  exists st', scan_line st line = Return st' /\
              s_abc st' = s_abc st ++ filter nonempty [line].
Proof.
  destruct line as [|c r]; [right; exists st; simpl; rewrite app_nil_r; auto|].
  unfold scan_line. set (ls := split COLON (c :: r)).
  destruct (subscript ls 0) as [k| e |] eqn:Ek; cbn [obind].
  - destruct (subscript ls 1) as [v| e |] eqn:Ev.
    + right. repeat (destruct (str_eqb k _)); cbn [obind];
        eexists; (split; [reflexivity|]); reflexivity.
    + apply subscript_raises in Ev; subst e.
      repeat (destruct (str_eqb k _); cbn [obind]; auto).
      right. eexists; (split; [reflexivity|]); reflexivity.
    + exfalso. exact (subscript_not_pending _ _ Ev).
  - left. apply subscript_raises in Ek. subst e. reflexivity.
  - exfalso. exact (subscript_not_pending _ _ Ek).
Qed.

Lemma scan_lines_cases (lines : list str) (st : Scan) :
  scan_lines lines st = Raise IndexError \/
  exists st', scan_lines lines st = Return st' /\
              s_abc st' = s_abc st ++ filter nonempty lines.
Proof.
  revert st; induction lines as [|line rest IH]; intro st; simpl.
  - right. exists st. rewrite app_nil_r. auto.
  - destruct (scan_line_cases st line) as [E | (st1 & E & Habc)];
      rewrite E; cbn [obind]; [left; reflexivity|].
    destruct (IH st1) as [E' | (st2 & E' & Habc')]; [left; exact E'|].
    right. exists st2. split; [exact E'|].
    rewrite Habc', Habc, <- app_assoc. f_equal.
    simpl. destruct (nonempty line); reflexivity.
Qed.

Lemma parse_setting_cases (text : str) :
  parse_setting text = Raise IndexError \/
  exists setting, parse_setting text = Return setting /\
    setting_abc setting = join [NL] (filter nonempty (split NL text)).
Proof.
  unfold parse_setting.
  destruct (scan_lines_cases (split NL text) scan_init) as [E | (st & E & Habc)];
    rewrite E; cbn [obind]; [left; reflexivity|].
  right. eexists. split; [reflexivity|]. simpl. rewrite Habc. reflexivity.
Qed.

Lemma parse_settings_cases (elements : list str) :
  parse_settings elements = Raise IndexError \/
  exists settings, parse_settings elements = Return settings.
Proof.
  induction elements as [|element rest IH]; simpl; [right; eauto|].
  destruct (parse_setting_cases element) as [E | (setting & E & _)];
    rewrite E; cbn [obind]; [left; reflexivity|].
  destruct IH as [E' | (settings & E')]; rewrite E'; cbn [obind]; eauto.
Qed.

Lemma split_singleton (sep : char) (s k : str) :
  split sep s = [k] -> k = s.
Proof.
  revert k; induction s as [|c r IH]; intros k H; simpl in H.
  - inversion H. reflexivity.
  - destruct (c =? sep)%N.
    + inversion H as [[Hk Hr]]. destruct (split_not_nil _ _ Hr).
    + destruct (split sep r) as [|h t] eqn:E;
        [destruct (split_not_nil _ _ E)|].
      inversion H; subst. f_equal. apply IH. reflexivity.
Qed.

Lemma scan_line_nonempty (st : Scan) (line : str) :
  line <> [] ->
  scan_line st line
  = (let! k := subscript (split COLON line) 0 in
     let! st' :=
       (if str_eqb k (lit "X") then
          let! v := subscript (split COLON line) 1 in
          Return (mkScan (Some (strip v)) (s_meter st) (s_key st) (s_abc st))
        else if str_eqb k (lit "M") then
          let! v := subscript (split COLON line) 1 in
          Return (mkScan (s_id st) (Some (strip v)) (s_key st) (s_abc st))
        else if str_eqb k (lit "K") then
          let! v := subscript (split COLON line) 1 in
          Return (mkScan (s_id st) (s_meter st) (Some (strip v)) (s_abc st))
        else Return st) in
     Return (mkScan (s_id st') (s_meter st') (s_key st')
               (s_abc st' ++ [line]))).
Proof. destruct line; [congruence | reflexivity]. Qed.

(** A line makes the scan fail exactly when it is a bare header name. *)
Lemma scan_line_raises_iff (st : Scan) (line : str) :
  scan_line st line = Raise IndexError <-> bare_header line.
Proof.
  split.
  - destruct (list_eq_dec N.eq_dec line []) as [->|Hne]; [discriminate|].
    rewrite (scan_line_nonempty st Hne).
    destruct (split COLON line) as [|k [|v rest]] eqn:E.
    + destruct (split_not_nil _ _ E).
    + apply split_singleton in E. subst k.
      rewrite subscript_head. cbn [obind].
      unfold bare_header.
      destruct (str_eqb line (lit "X")) eqn:EX;
        [apply str_eqb_eq in EX; auto|].
      destruct (str_eqb line (lit "M")) eqn:EM;
        [apply str_eqb_eq in EM; auto|].
      destruct (str_eqb line (lit "K")) eqn:EK;
        [apply str_eqb_eq in EK; auto|].
      cbn [obind]. discriminate.
    + rewrite subscript_head. cbn [obind].
      change (subscript (k :: v :: rest) 1) with (Return v).
      repeat (destruct (str_eqb k _); cbn [obind]); discriminate.
  - intros [->|[->| ->]]; reflexivity.
Qed.

Lemma scan_lines_raises_iff (lines : list str) (st : Scan) :
  scan_lines lines st = Raise IndexError <-> Exists bare_header lines.
Proof.
  revert st; induction lines as [|line rest IH]; intro st; simpl.
  - split; [discriminate | intro H; inversion H].
  - rewrite Exists_cons.
    destruct (scan_line_cases st line) as [E | (st1 & E & _)];
      rewrite E; cbn [obind].
    + apply scan_line_raises_iff in E. tauto.
    + rewrite IH. split; [tauto|]. intros [H|H]; [|exact H].
      apply (scan_line_raises_iff st) in H. congruence.
Qed.

(** The scan of a block fails exactly when one of its lines is a bare
    header name, and returns a setting otherwise. *)
Lemma parse_setting_raises_iff (text : str) :
  parse_setting text = Raise IndexError
  <-> Exists bare_header (split NL text).
Proof.
  rewrite <- (scan_lines_raises_iff (split NL text) scan_init).
  unfold parse_setting.
  destruct (scan_lines (split NL text) scan_init); cbn [obind];
    split; congruence.
Qed.

Lemma parse_setting_returns (text : str) :
  ~ Exists bare_header (split NL text) ->
  exists setting, parse_setting text = Return setting.
Proof.
  intro H. destruct (parse_setting_cases text) as [E | (setting & E & _)];
    [apply parse_setting_raises_iff in E; tauto | eauto].
Qed.

(** ** The fetch contract *)

Lemma fetch_contract_intro (A : Type) (w : World) (url : str)
  (extract : Tree w -> outcome A) (op : M A) (tr : list Event) :
  (forall tree status, extract tree <> Raise (HTTPError status)) ->
  op tr = bind (get w url)
            (fun resp => bind (raise_for_status resp)
               (fun _ => bind (html_fromstring w (content resp))
                  (fun tree => lift (extract tree)))) tr ->
  fetch_contract w url extract op tr.
Proof.
  intros Hex Hop.
  assert (Herr : (400 <= status_code (requests_get w tr url) < 600)%Z ->
                 op tr = (Raise (HTTPError (status_code (requests_get w tr url))),
                          tr ++ [Get url])).
  { intro H. rewrite Hop. unfold bind, get.
    rewrite (raise_for_status_raises _ _ H). reflexivity. }
  assert (Hok : passes (requests_get w tr url) ->
                op tr = (extract (fromstring w (content (requests_get w tr url))),
                         tr ++ [Get url;
                                FromString (content (requests_get w tr url))])).
  { intro H. rewrite Hop. unfold bind, get, html_fromstring, lift.
    rewrite (raise_for_status_passes _ H), <- app_assoc.
    destruct (extract _); reflexivity. }
  split; [|split; assumption].
  split.
  - intros [status Hst].
    destruct (Z.le_gt_cases 400 (status_code (requests_get w tr url)));
      destruct (Z.lt_ge_cases (status_code (requests_get w tr url)) 600);
      try lia;
      (exfalso; rewrite Hok in Hst by (unfold passes; lia);
       exact (Hex _ _ Hst)).
  - intro H. rewrite (Herr H). cbn [fst]. eauto.
Qed.

(** C5, as the code has it. Each fetch function sends one GET and raises
    [HTTPError] if and only if the status of the response is from 400 to
    599, the statuses [raise_for_status] rejects; then nothing is parsed.
    For every other status, the 1xx and 3xx ones included, the body of
    the response is parsed as received and handed to the extraction. *)
Theorem fetch_raises_iff_client_or_server_error (w : World) (tr : list Event)
  (query tune_id : str) :
  fetch_contract w POPULAR_TUNES_EP (extract_popular w) (get_popular_tunes w) tr /\
  fetch_contract w (SEARCH_EP query) (extract_search w)
    (get_search_tunes w query) tr /\
  fetch_contract w (TUNES_EP tune_id) (extract_settings w)
    (get_tune_settings w tune_id) tr.
Proof.
  split; [|split]; apply fetch_contract_intro;
    try (intros; discriminate); try reflexivity.
  intros tree status. unfold extract_settings.
  destruct (parse_settings_cases (xpath_text_content w tree BASE_SETTING_XPATH))
    as [E | (settings & E)]; rewrite E; discriminate.
Qed.

(** C5 as stated fails for a status that is neither 2xx nor an error
    status: on 300 the three functions go on to extraction and return. *)
Lemma multiple_choices_is_not_raised :
  status_code (requests_get multiple_choices_world [] POPULAR_TUNES_EP) = 300%Z /\
  ~ (200 <= 300 < 300)%Z /\
  get_popular_tunes multiple_choices_world []
  = (Return [], [Get POPULAR_TUNES_EP; FromString sample_markup]) /\
  get_search_tunes multiple_choices_world (lit "reel") []
  = (Return [], [Get (SEARCH_EP (lit "reel")); FromString sample_markup]) /\
  get_tune_settings multiple_choices_world (lit "50") []
  = (Return [], [Get (TUNES_EP (lit "50")); FromString sample_markup]).
Proof. repeat split; try reflexivity. lia. Qed.

(** ** Notation blocks and their parsed fields *)

Lemma subscript_0 (A : Type) (l : list A) (x : A) :
  subscript l 0 = Return x -> exists t, l = x :: t.
Proof.
  destruct l as [|y t]; unfold subscript, getitem; simpl; [discriminate|].
  intro H. inversion H. eauto.
Qed.

Lemma subscript_1 (A : Type) (l : list A) (x : A) :
  subscript l 1 = Return x -> exists k t, l = k :: x :: t.
Proof.
  destruct l as [|k [|y t]]; unfold subscript, getitem; simpl;
    try discriminate.
  intro H. inversion H. eauto.
Qed.

Lemma backed_app (field : option str) (key : str) (abc more : list str) :
  backed field key abc -> backed field key (abc ++ more).
Proof.
  intros H v Hv. destruct (H v Hv) as (line & Hin & Hl).
  exists line. split; [apply in_or_app; left|]; assumption.
Qed.

Lemma backed_new (key x : str) (rest : list str) (line : str) (abc : list str) :
  split COLON line = key :: x :: rest ->
  backed (Some (strip x)) key (abc ++ [line]).
Proof.
  intros H v Hv. inversion Hv; subst v. exists line.
  split; [apply in_or_app; right; left; reflexivity|].
  exists x, rest. auto.
Qed.

Lemma scan_line_backed (st st' : Scan) (line : str) :
  scan_line st line = Return st' -> scan_backed st -> scan_backed st'.
Proof.
  intros H (Hid & Hm & Hk).
  destruct line as [|c r]; [simpl in H; inversion H; subst; repeat split; auto|].
  unfold scan_line in H. set (line := c :: r) in *.
  destruct (subscript (split COLON line) 0) as [k| |] eqn:Ek; cbn [obind] in H;
    try discriminate.
  destruct (subscript_0 _ Ek) as [t Et].
  destruct (str_eqb k (lit "X")) eqn:EX;
    [|destruct (str_eqb k (lit "M")) eqn:EM;
      [|destruct (str_eqb k (lit "K")) eqn:EK]];
    try (destruct (subscript (split COLON line) 1) as [v| |] eqn:Ev;
         cbn [obind] in H; try discriminate;
         destruct (subscript_1 _ Ev) as (k' & rest & Ekv);
         assert (k' = k) by congruence; subst k');
    inversion H; subst st'; clear H; unfold scan_backed; cbn;
    repeat split; try (apply backed_app; assumption).
  - apply str_eqb_eq in EX; subst k. eapply backed_new; eassumption.
  - apply str_eqb_eq in EM; subst k. eapply backed_new; eassumption.
  - apply str_eqb_eq in EK; subst k. eapply backed_new; eassumption.
Qed.

Lemma scan_lines_backed (lines : list str) (st st' : Scan) :
  scan_lines lines st = Return st' -> scan_backed st -> scan_backed st'.
Proof.
  revert st; induction lines as [|line rest IH]; intros st H Hb; simpl in H.
  - inversion H; subst; assumption.
  - destruct (scan_line st line) as [st1| |] eqn:E; cbn [obind] in H;
      try discriminate.
    eapply IH; [eassumption|]. eapply scan_line_backed; eassumption.
Qed.

Lemma scan_init_backed : scan_backed scan_init.
Proof. repeat split; intros v Hv; discriminate. Qed.

(** The lines kept in the notation come back when it is split again. *)
Lemma split_join_kept (text : str) (line : str) :
  In line (filter nonempty (split NL text)) ->
  split NL (join [NL] (filter nonempty (split NL text)))
  = filter nonempty (split NL text).
Proof.
  intro Hin. apply split_join.
  - intro E. rewrite E in Hin. exact Hin.
  - apply incl_Forall with (l1 := split NL text);
      [intros x Hx; apply filter_In in Hx; tauto|].
    apply split_pieces_no_sep.
Qed.

Lemma filter_nonempty_idem (l : list str) :
  filter nonempty (filter nonempty l) = filter nonempty l.
Proof.
  induction l as [|x l IH]; simpl; [reflexivity|].
  destruct (nonempty x) eqn:E; simpl; [rewrite E, IH|]; auto.
Qed.

Lemma nonempty_true (line : str) : line <> [] -> nonempty line = true.
Proof. destruct line; [congruence | reflexivity]. Qed.

(** C6, as the code has it. The notation of a setting is the non-empty
    lines of the block joined by newlines. Split again at newlines it
    holds every non-empty line of the block, unmodified and in the order
    of the block, and so each header line that filled id, meter or key: a
    parsed field is always the value of a header line that is still in
    the notation. Empty lines of the block are not kept: when the block
    has a non-empty line, the lines of the notation are exactly the
    non-empty lines of the block and none of them is empty; when it has
    none, the notation is the empty string. *)
Theorem notation_keeps_nonempty_lines (text : str) (setting : TuneSetting) :
  parse_setting text = Return setting ->
  setting_abc setting = join [NL] (filter nonempty (split NL text)) /\
  (filter nonempty (split NL text) <> [] ->
   split NL (setting_abc setting) = filter nonempty (split NL text) /\
   ~ In [] (split NL (setting_abc setting))) /\
  (filter nonempty (split NL text) = [] -> setting_abc setting = []) /\
  filter nonempty (split NL (setting_abc setting))
  = filter nonempty (split NL text) /\
  (forall line,
     In line (split NL text) -> line <> [] ->
     In line (split NL (setting_abc setting))) /\
  backed (setting_id setting) (lit "X") (split NL (setting_abc setting)) /\
  backed (setting_meter setting) (lit "M") (split NL (setting_abc setting)) /\
  backed (setting_key setting) (lit "K") (split NL (setting_abc setting)).
Proof.
  intro H. unfold parse_setting in H.
  destruct (scan_lines (split NL text) scan_init) as [st| |] eqn:E;
    cbn [obind] in H; try discriminate.
  inversion H; subst setting; clear H. cbn.
  destruct (scan_lines_cases (split NL text) scan_init)
    as [E' | (st' & E' & Habc)]; [congruence|].
  assert (st' = st) by congruence; subst st'. simpl in Habc.
  destruct (scan_lines_backed _ E scan_init_backed) as (Hid & Hm & Hk).
  rewrite Habc in *.
  assert (Hexact : filter nonempty (split NL text) <> [] ->
                   split NL (join [NL] (filter nonempty (split NL text)))
                   = filter nonempty (split NL text)).
  { intro Hne.
    destruct (filter nonempty (split NL text)) as [|x kept] eqn:Ek;
      [congruence|].
    rewrite <- Ek. apply (split_join_kept text x). rewrite Ek. left; reflexivity. }
  assert (Hkept : forall line,
             In line (filter nonempty (split NL text)) ->
             In line (split NL (join [NL] (filter nonempty (split NL text))))).
  { intros line Hin. rewrite (split_join_kept text line Hin). exact Hin. }
  assert (Hback : forall field key,
             backed field key (filter nonempty (split NL text)) ->
             backed field key
               (split NL (join [NL] (filter nonempty (split NL text))))).
  { intros field key Hb v Hv. destruct (Hb v Hv) as (line & Hin & Hl).
    exists line. auto. }
  split; [reflexivity|].
  split.
  { intro Hne. rewrite (Hexact Hne). split; [reflexivity|].
    intro Hin. apply filter_In in Hin. destruct Hin as [_ Hin]. discriminate Hin. }
  split; [intros ->; reflexivity|].
  repeat split; auto.
  - destruct (filter nonempty (split NL text)) as [|x kept] eqn:Ek;
      [reflexivity|].
    rewrite <- Ek, (split_join_kept text x) by (rewrite Ek; left; reflexivity).
    apply filter_nonempty_idem.
  - intros line Hin Hne. apply Hkept, filter_In.
    split; [exact Hin | apply nonempty_true; exact Hne].
Qed.

Lemma notation_keeps_nonempty_lines_witness :
  lit "X:1" ++ [NL] ++ lit "A B c d|"
  = join [NL] (filter nonempty (split NL blank_line_block)) /\
  (filter nonempty (split NL blank_line_block) <> [] ->
   split NL (lit "X:1" ++ [NL] ++ lit "A B c d|")
   = filter nonempty (split NL blank_line_block) /\
   ~ In [] (split NL (lit "X:1" ++ [NL] ++ lit "A B c d|"))) /\
  (filter nonempty (split NL blank_line_block) = [] ->
   lit "X:1" ++ [NL] ++ lit "A B c d|" = []) /\
  filter nonempty (split NL (lit "X:1" ++ [NL] ++ lit "A B c d|"))
  = filter nonempty (split NL blank_line_block) /\
  (forall line,
     In line (split NL blank_line_block) -> line <> [] ->
     In line (split NL (lit "X:1" ++ [NL] ++ lit "A B c d|"))) /\
  backed (Some (lit "1")) (lit "X")
    (split NL (lit "X:1" ++ [NL] ++ lit "A B c d|")) /\
  backed None (lit "M") (split NL (lit "X:1" ++ [NL] ++ lit "A B c d|")) /\
  backed None (lit "K") (split NL (lit "X:1" ++ [NL] ++ lit "A B c d|")).
Proof.
  exact (notation_keeps_nonempty_lines blank_line_block
           (setting := mkTuneSetting (Some (lit "1")) None None
                         (lit "X:1" ++ [NL] ++ lit "A B c d|"))
           eq_refl).
Defined.

(** C6 as stated fails on a block with a blank line: the empty line is a
    raw line of the block and is not a line of the notation. *)
Lemma blank_line_is_not_kept :
  parse_setting blank_line_block
  = Return (mkTuneSetting (Some (lit "1")) None None
              (lit "X:1" ++ [NL] ++ lit "A B c d|")) /\
  In [] (split NL blank_line_block) /\
  ~ In [] (split NL (lit "X:1" ++ [NL] ++ lit "A B c d|")).
Proof.
  split; [reflexivity|]. split; [right; left; reflexivity|].
  intros [H|[H|[]]]; discriminate.
Qed.

(** C2 at a line with a second colon: the key is the text between the
    first and the second colon, not the text after the colon. *)
Theorem key_is_cut_at_second_colon :
  parse_setting commented_key_line
  = Return (mkTuneSetting None None (Some (lit "Edor % key")) commented_key_line)
  /\ split COLON commented_key_line = [lit "K"; lit "Edor % key"; lit " E dorian"]
  /\ strip (after_first_colon commented_key_line) = lit "Edor % key: E dorian".
Proof. repeat split; reflexivity. Qed.

(** C8 at a line that names a header and has no colon: [ls[1]] raises
    [IndexError], and the exception leaves [get_tune_settings]. *)
Theorem header_without_colon_raises :
  parse_setting (lit "K") = Raise IndexError /\
  get_tune_settings bare_key_world (lit "50") []
  = (Raise IndexError, [Get (TUNES_EP (lit "50")); FromString sample_markup]).
Proof. split; reflexivity. Qed.

(** Apart from that [IndexError], extraction returns: the listing
    functions always, after a fetch that passes. *)
Lemma get_tunes_returns (w : World) (l : Listing) (tr : list Event) :
  passes (requests_get w tr (listing_url l)) ->
  exists tunes, fst (get_tunes w l tr) = Return tunes.
Proof. intro H. rewrite (get_tunes_passes w l tr H). cbn [fst]. eauto. Qed.

(** A header line with exactly one colon sets its field to the stripped
    text after the colon, and the line is kept. *)
Lemma scan_line_header (st : Scan) (key value : str) :
  ~ In COLON key -> ~ In COLON value -> key <> [] ->
  scan_line st (key ++ COLON :: value)
  = Return (mkScan
              (if str_eqb key (lit "X") then Some (strip value) else s_id st)
              (if str_eqb key (lit "X") then s_meter st
               else if str_eqb key (lit "M") then Some (strip value)
                    else s_meter st)
              (if str_eqb key (lit "X") then s_key st
               else if str_eqb key (lit "M") then s_key st
                    else if str_eqb key (lit "K") then Some (strip value)
                         else s_key st)
              (s_abc st ++ [key ++ COLON :: value])).
Proof.
  intros Hk Hv Hne. destruct key as [|c key]; [congruence|].
  unfold scan_line. cbn [app].
  change (c :: key ++ COLON :: value) with ((c :: key) ++ COLON :: value).
  rewrite split_app_sep by assumption.
  rewrite (@split_no_sep COLON value Hv).
  unfold subscript, getitem. cbn [obind nth_error Z.ltb Z.compare Z.to_nat
    Pos.to_nat Pos.iter_op Nat.add].
  destruct (str_eqb (c :: key) (lit "X")); [reflexivity|].
  destruct (str_eqb (c :: key) (lit "M")); [reflexivity|].
  destruct (str_eqb (c :: key) (lit "K")); reflexivity.
Qed.

(** ** The picker protocol *)

Lemma select_tune_run (w : World) (tunes : list Tune) (tr : list Event) :
  select_tune w tunes tr
  = (decode_tune tunes
       (fst (subprocess_run w tr tune_rofi_command (_format_tunes tunes)))
       (snd (subprocess_run w tr tune_rofi_command (_format_tunes tunes))),
     tr ++ [Run tune_rofi_command (_format_tunes tunes)]).
Proof. reflexivity. Qed.

Lemma select_setting_run (w : World) (settings : list TuneSetting)
  (tr : list Event) :
  select_setting w settings tr
  = (decode_setting settings
       (fst (subprocess_run w tr setting_rofi_command
               (_format_settings settings)))
       (snd (subprocess_run w tr setting_rofi_command
               (_format_settings settings))),
     tr ++ [Run setting_rofi_command (_format_settings settings)]).
Proof. reflexivity. Qed.

(** The reply ["k:text"] splits into the numeral of [k] and the pieces of
    [text]. *)
Lemma split_reply (k : Z) (text : str) :
  split COLON (Z_to_str k ++ COLON :: text) = Z_to_str k :: split COLON text.
Proof. apply split_app_sep, numeral_char_not_colon, Z_to_str_chars. Qed.

Lemma int_of_numeral (k : Z) : int_of (Z_to_str k) = Return k.
Proof. unfold int_of. rewrite int_Z_to_str. reflexivity. Qed.

Lemma subscript_second (x : str) (s : str) :
  subscript (x :: split COLON s) 1 = Return (hd [] (split COLON s)).
Proof.
  pose proof (split_not_nil COLON s) as H.
  destruct (split COLON s) as [|y t]; [congruence | reflexivity].
Qed.

(** What [select_tune] makes of the reply ["k:text"] with exit code 0. *)
Lemma decode_tune_reply (tunes : list Tune) (k : Z) (text : str) :
  decode_tune tunes 0 (Z_to_str k ++ COLON :: text)
  = if (k <? 0)%Z then Raise (SearchException (hd [] (split COLON text)))
    else subscript tunes k.
Proof.
  unfold decode_tune. cbn [Z.eqb negb].
  rewrite split_reply, subscript_head. cbn [obind].
  rewrite int_of_numeral. cbn [obind].
  destruct (k <? 0)%Z; [|reflexivity].
  rewrite subscript_second. reflexivity.
Qed.

(** What [select_setting] makes of the reply ["k:text"] with exit code 0. *)
Lemma decode_setting_reply (settings : list TuneSetting) (k : Z) (text : str) :
  decode_setting settings 0 (Z_to_str k ++ COLON :: text)
  = if (k <? 0)%Z then Raise (ValueError (lit "Must select a valid setting!"))
    else subscript settings k.
Proof.
  unfold decode_setting. cbn [Z.eqb negb].
  rewrite split_reply, subscript_head. cbn [obind].
  rewrite int_of_numeral. cbn [obind]. reflexivity.
Qed.

Lemma subscript_in_range (A : Type) (l : list A) (i : Z) :
  (0 <= i < Z.of_nat (List.length l))%Z ->
  exists x, nth_error l (Z.to_nat i) = Some x /\ subscript l i = Return x.
Proof.
  intro H. destruct (getitem_in_range l H) as (x & Hg & Hn).
  exists x. unfold subscript. rewrite Hg. auto.
Qed.

Lemma subscript_beyond (A : Type) (l : list A) (i : Z) :
  (Z.of_nat (List.length l) <= i)%Z -> subscript l i = Raise IndexError.
Proof. intro H. unfold subscript. rewrite (getitem_beyond l H). reflexivity. Qed.

Lemma decode_tune_exit (tunes : list Tune) (C : Z) (out : str) :
  C <> 0%Z -> decode_tune tunes C out = Raise (SystemExit C).
Proof.
  intro H. unfold decode_tune. destruct (Z.eqb_spec C 0); [congruence|].
  reflexivity.
Qed.

Lemma decode_setting_exit (settings : list TuneSetting) (C : Z) (out : str) :
  C <> 0%Z -> decode_setting settings C out = Raise (SystemExit C).
Proof.
  intro H. unfold decode_setting. destruct (Z.eqb_spec C 0); [congruence|].
  reflexivity.
Qed.

(** C3. The picker ran on the rendered list, exited with code 0 and
    replied ["k:text"]. For [0 <= k < N], [select_tune] and
    [select_setting] return the candidate at index [k] of the list they
    rendered; for [k >= N] they raise [IndexError]; and for a negative [k]
    they raise before the list is indexed, so no candidate is returned. *)
Theorem selection_by_index (w : World) (tr : list Event) (tunes : list Tune)
  (settings : list TuneSetting) (k : Z) (text : str) :
  subprocess_run w tr tune_rofi_command (_format_tunes tunes)
  = (0%Z, Z_to_str k ++ COLON :: text) ->
  subprocess_run w tr setting_rofi_command (_format_settings settings)
  = (0%Z, Z_to_str k ++ COLON :: text) ->
  ((0 <= k < Z.of_nat (List.length tunes))%Z ->
   exists tune,
     nth_error tunes (Z.to_nat k) = Some tune /\
     select_tune w tunes tr
     = (Return tune, tr ++ [Run tune_rofi_command (_format_tunes tunes)])) /\
  ((Z.of_nat (List.length tunes) <= k)%Z ->
   select_tune w tunes tr
   = (Raise IndexError, tr ++ [Run tune_rofi_command (_format_tunes tunes)])) /\
  ((0 <= k < Z.of_nat (List.length settings))%Z ->
   exists setting,
     nth_error settings (Z.to_nat k) = Some setting /\
     select_setting w settings tr
     = (Return setting,
        tr ++ [Run setting_rofi_command (_format_settings settings)])) /\
  ((Z.of_nat (List.length settings) <= k)%Z ->
   select_setting w settings tr
   = (Raise IndexError,
      tr ++ [Run setting_rofi_command (_format_settings settings)])) /\
  ((k < 0)%Z ->
   (exists e, fst (select_tune w tunes tr) = Raise e) /\
   (exists e, fst (select_setting w settings tr) = Raise e)).
Proof.
  intros Ht Hs.
  rewrite select_tune_run, select_setting_run, Ht, Hs. cbn [fst snd].
  rewrite decode_tune_reply, decode_setting_reply.
  repeat split.
  - intro H. destruct (subscript_in_range tunes H) as (x & Hn & Hx).
    exists x. destruct (Z.ltb_spec k 0); [lia|]. rewrite Hx. auto.
  - intro H. destruct (Z.ltb_spec k 0); [lia|].
    rewrite (subscript_beyond tunes H). reflexivity.
  - intro H. destruct (subscript_in_range settings H) as (x & Hn & Hx).
    exists x. destruct (Z.ltb_spec k 0); [lia|]. rewrite Hx. auto.
  - intro H. destruct (Z.ltb_spec k 0); [lia|].
    rewrite (subscript_beyond settings H). reflexivity.
  - destruct (Z.ltb_spec k 0); [eauto | lia].
  - destruct (Z.ltb_spec k 0); [eauto | lia].
Qed.

Lemma selection_by_index_witness :
  select_tune (session_world [(0%Z, lit "1:Drowsy Maggie")])
    [cooleys; drowsy_maggie] []
  = (Return drowsy_maggie,
     [Run tune_rofi_command (_format_tunes [cooleys; drowsy_maggie])]) /\
  select_setting (session_world [(0%Z, lit "1:Drowsy Maggie")])
    [edor_setting; dmaj_setting] []
  = (Return dmaj_setting,
     [Run setting_rofi_command (_format_settings [edor_setting; dmaj_setting])]).
Proof.
  destruct (selection_by_index (session_world [(0%Z, lit "1:Drowsy Maggie")]) []
              [cooleys; drowsy_maggie] [edor_setting; dmaj_setting]
              1 (lit "Drowsy Maggie") eq_refl eq_refl)
    as (Htune & _ & Hsetting & _).
  destruct Htune as (tune & Hn & Hsel); [simpl; lia|].
  destruct Hsetting as (setting & Hn' & Hsel'); [simpl; lia|].
  simpl in Hn, Hn'. inversion Hn; inversion Hn'; subst.
  split; assumption.
Defined.

(** A negative index is not looked up: on this reply Python's [tunes[-1]]
    would be the last tune, and [select_tune] raises instead. *)
Example negative_index_is_not_looked_up :
  getitem [cooleys; drowsy_maggie] (-1) = Some drowsy_maggie /\
  decode_tune [cooleys; drowsy_maggie] 0 (lit "-1:maggie")
  = Raise (SearchException (lit "maggie")) /\
  decode_setting [edor_setting; dmaj_setting] 0 (lit "-1:maggie")
  = Raise (ValueError (lit "Must select a valid setting!")).
Proof. repeat split; reflexivity. Qed.

(** C4 at a reply whose text holds a colon: the query that
    [SearchException] carries stops at that colon. *)
Theorem requery_text_is_cut_at_colon :
  decode_tune [cooleys; drowsy_maggie] 0 (lit "-1:Planxty: Irwin")
  = Raise (SearchException (lit "Planxty")) /\
  after_first_colon (lit "-1:Planxty: Irwin") = lit "Planxty: Irwin" /\
  fst (select_tune (session_world [(0%Z, lit "-1:Planxty: Irwin")])
         [cooleys; drowsy_maggie] [])
  = Raise (SearchException (lit "Planxty")).
Proof. repeat split; reflexivity. Qed.

(** For a text without a colon the query is the whole text. *)
Lemma select_tune_requery (w : World) (tr : list Event) (tunes : list Tune)
  (k : Z) (text : str) :
  subprocess_run w tr tune_rofi_command (_format_tunes tunes)
  = (0%Z, Z_to_str k ++ COLON :: text) ->
  (k < 0)%Z -> ~ In COLON text ->
  select_tune w tunes tr
  = (Raise (SearchException text),
     tr ++ [Run tune_rofi_command (_format_tunes tunes)]).
Proof.
  intros Hr Hk Hc. rewrite select_tune_run, Hr. cbn [fst snd].
  rewrite decode_tune_reply. destruct (Z.ltb_spec k 0); [|lia].
  rewrite (@split_no_sep COLON text Hc). reflexivity.
Qed.

(** There is no new query for settings: a negative index is the
    [ValueError] of [select_setting]. *)
Lemma select_setting_negative (w : World) (tr : list Event)
  (settings : list TuneSetting) (k : Z) (text : str) :
  subprocess_run w tr setting_rofi_command (_format_settings settings)
  = (0%Z, Z_to_str k ++ COLON :: text) ->
  (k < 0)%Z ->
  select_setting w settings tr
  = (Raise (ValueError (lit "Must select a valid setting!")),
     tr ++ [Run setting_rofi_command (_format_settings settings)]).
Proof.
  intros Hr Hk. rewrite select_setting_run, Hr. cbn [fst snd].
  rewrite decode_setting_reply. destruct (Z.ltb_spec k 0); [|lia].
  reflexivity.
Qed.

(** ** The search loop and the whole program *)

Lemma search_loop_round (w : World) (fuel : nat) (q : str) (tr tr1 : list Event)
  (tunes : list Tune) :
  get_search_tunes w q tr = (Return tunes, tr1) ->
  search_loop w (S fuel) q tr
  = match select_tune w tunes tr1 with
    | (Raise (SearchException q'), tr2) => search_loop w fuel q' tr2
    | r => r
    end.
Proof.
  intro H. cbn [search_loop]. unfold try_except_SearchException, bind.
  rewrite H. reflexivity.
Qed.

(** Rounds that end in a new query are rounds of the loop. *)
Lemma requeries_search_loop (w : World) (q q' : str) (tr tr' : list Event)
  (n : nat) :
  requeries w q tr q' tr' n ->
  forall fuel, search_loop w (n + fuel) q tr = search_loop w fuel q' tr'.
Proof.
  induction 1 as [|q q1 q' tr tr1 tr2 tr' tunes n Hget Hsel _ IH]; intro fuel;
    [reflexivity|].
  cbn [Nat.add]. erewrite search_loop_round by eassumption.
  rewrite Hsel. apply IH.
Qed.

(** Every fetch starts with its GET. *)
Lemma get_search_tunes_first_event (w : World) (q : str) (tr : list Event) :
  exists rest, snd (get_search_tunes w q tr) = tr ++ Get (SEARCH_EP q) :: rest.
Proof.
  destruct (@fetch_contract_intro _ w (SEARCH_EP q) (extract_search w)
              (get_search_tunes w q) tr
              ltac:(intros; discriminate) eq_refl) as (_ & Herr & Hok).
  destruct (Z.le_gt_cases 400 (status_code (requests_get w tr (SEARCH_EP q))));
    destruct (Z.lt_ge_cases (status_code (requests_get w tr (SEARCH_EP q))) 600);
    try (rewrite Hok by (unfold passes; lia); cbn [snd]; eauto).
  rewrite Herr by lia. cbn [snd]. eauto.
Qed.

(** The loop only adds to the call log. *)
Lemma search_loop_extends (w : World) (fuel : nat) (q : str) (tr : list Event) :
  exists ext, snd (search_loop w fuel q tr) = tr ++ ext.
Proof.
  revert q tr; induction fuel as [|fuel IH]; intros q tr.
  - exists []. cbn. rewrite app_nil_r. reflexivity.
  - cbn [search_loop]. unfold try_except_SearchException, bind.
    destruct (get_search_tunes_first_event w q tr) as [rest Hrest].
    destruct (get_search_tunes w q tr) as [[tunes| e |] tr1];
      cbn [snd] in Hrest; subst tr1.
    + rewrite select_tune_run.
      destruct (decode_tune tunes _ _) as [t| [ | | |q2| ] |];
        try solve [cbn [snd]; rewrite <- app_assoc; eauto].
      destruct (IH q2 ((tr ++ Get (SEARCH_EP q) :: rest)
                         ++ [Run tune_rofi_command (_format_tunes tunes)]))
        as [ext Hext].
      rewrite Hext, <- !app_assoc. eauto.
    + destruct e as [ | | |q2| ]; try solve [cbn [snd]; eauto].
      destruct (IH q2 (tr ++ Get (SEARCH_EP q) :: rest)) as [ext Hext].
      rewrite Hext, <- app_assoc. eauto.
    + cbn [snd]. eauto.
Qed.

(** A round of the loop starts with the GET of the search page for its
    query. *)
Lemma search_loop_first_event (w : World) (fuel : nat) (q : str)
  (tr : list Event) :
  exists rest,
    snd (search_loop w (S fuel) q tr) = tr ++ Get (SEARCH_EP q) :: rest.
Proof.
  cbn [search_loop]. unfold try_except_SearchException, bind.
  destruct (get_search_tunes_first_event w q tr) as [rest Hrest].
  destruct (get_search_tunes w q tr) as [[tunes| e |] tr1];
    cbn [snd] in Hrest; subst tr1.
  - rewrite select_tune_run.
    destruct (decode_tune tunes _ _) as [t| [ | | |q2| ] |];
      try solve [cbn [snd]; rewrite <- app_assoc; cbn [app]; eauto].
    destruct (search_loop_extends w fuel q2
                ((tr ++ Get (SEARCH_EP q) :: rest)
                   ++ [Run tune_rofi_command (_format_tunes tunes)]))
      as [ext Hext].
    rewrite Hext, <- !app_assoc. cbn [app]. eauto.
  - destruct e as [ | | |q2| ]; try solve [cbn [snd]; eauto].
    destruct (search_loop_extends w fuel q2 (tr ++ Get (SEARCH_EP q) :: rest))
      as [ext Hext].
    rewrite Hext, <- app_assoc. cbn [app]. eauto.
  - cbn [snd]. eauto.
Qed.

(** After a reply with a negative index and a text without colon, the
    loop goes on with that text as the query, and its next call is the GET
    of the search page for that text, not for the first query. *)
Lemma requery_fetches_new_query (w : World) (fuel : nat) (q : str)
  (tr tr1 : list Event) (tunes : list Tune) (k : Z) (text : str) :
  get_search_tunes w q tr = (Return tunes, tr1) ->
  subprocess_run w tr1 tune_rofi_command (_format_tunes tunes)
  = (0%Z, Z_to_str k ++ COLON :: text) ->
  (k < 0)%Z -> ~ In COLON text ->
  search_loop w (S (S fuel)) q tr
  = search_loop w (S fuel) text
      (tr1 ++ [Run tune_rofi_command (_format_tunes tunes)]) /\
  exists rest,
    snd (search_loop w (S (S fuel)) q tr)
    = tr1 ++ Run tune_rofi_command (_format_tunes tunes)
          :: Get (SEARCH_EP text) :: rest.
Proof.
  intros Hget Hr Hk Hc.
  assert (E : search_loop w (S (S fuel)) q tr
              = search_loop w (S fuel) text
                  (tr1 ++ [Run tune_rofi_command (_format_tunes tunes)])).
  { erewrite search_loop_round by eassumption.
    erewrite select_tune_requery by eassumption. reflexivity. }
  split; [exact E|]. rewrite E.
  destruct (search_loop_first_event w fuel text
              (tr1 ++ [Run tune_rofi_command (_format_tunes tunes)]))
    as [rest Hrest].
  exists rest. rewrite Hrest, <- app_assoc. reflexivity.
Qed.

(** Scenario C of the specification: the reply ["-1:new query text"] makes
    the next fetch ask for ["new query text"]. *)
Example scenario_C :
  snd (search_loop (session_world [(0%Z, lit "-1:new query text")]) 2
         (lit "maggie") [])
  = [Get (SEARCH_EP (lit "maggie")); FromString sample_markup;
     Run tune_rofi_command (_format_tunes [cooleys; drowsy_maggie]);
     Get (SEARCH_EP (lit "new query text")); FromString sample_markup;
     Run tune_rofi_command (_format_tunes [cooleys; drowsy_maggie])].
Proof. reflexivity. Qed.

(** [SystemExit] is not caught by the loop. *)
Lemma search_loop_exit (w : World) (fuel : nat) (q : str) (tr tr1 : list Event)
  (tunes : list Tune) (C : Z) (out : str) :
  get_search_tunes w q tr = (Return tunes, tr1) ->
  subprocess_run w tr1 tune_rofi_command (_format_tunes tunes) = (C, out) ->
  C <> 0%Z ->
  search_loop w (S fuel) q tr
  = (Raise (SystemExit C),
     tr1 ++ [Run tune_rofi_command (_format_tunes tunes)]).
Proof.
  intros Hget Hr HC. erewrite search_loop_round by eassumption.
  rewrite select_tune_run, Hr. cbn [fst snd].
  rewrite (decode_tune_exit tunes out HC). reflexivity.
Qed.

Lemma search_loop_selected (w : World) (fuel : nat) (q : str)
  (tr tr1 tr2 : list Event) (tunes : list Tune) (tune : Tune) :
  get_search_tunes w q tr = (Return tunes, tr1) ->
  select_tune w tunes tr1 = (Return tune, tr2) ->
  search_loop w (S fuel) q tr = (Return tune, tr2).
Proof.
  intros Hget Hsel. erewrite search_loop_round by eassumption.
  rewrite Hsel. reflexivity.
Qed.

(** C7. The picker exits with a code [C] other than 0, in the tune step
    of any round of the search loop or in the setting step. Then
    [select_tune], respectively [select_setting], raises [SystemExit(C)],
    nothing catches it, and the program ends with [SystemExit(C)] right
    after that run of the picker: no selection is returned and no further
    call is made. *)
Theorem picker_exit_code_ends_program (w : World) (argv : list str)
  (q : str) (tr0 tr tr1 : list Event) (n fuel : nat) (tunes : list Tune)
  (C : Z) (out : str) :
  C <> 0%Z ->
  requeries w (join (lit " ") (tl argv)) tr0 q tr n ->
  get_search_tunes w q tr = (Return tunes, tr1) ->
  (subprocess_run w tr1 tune_rofi_command (_format_tunes tunes) = (C, out) ->
   select_tune w tunes tr1
   = (Raise (SystemExit C),
      tr1 ++ [Run tune_rofi_command (_format_tunes tunes)]) /\
   main w (n + S fuel) argv tr0
   = (Raise (SystemExit C),
      tr1 ++ [Run tune_rofi_command (_format_tunes tunes)])) /\
  (forall (tune : Tune) (settings : list TuneSetting) (tr2 tr3 : list Event),
     select_tune w tunes tr1 = (Return tune, tr2) ->
     get_tune_settings w (tune_id tune) tr2 = (Return settings, tr3) ->
     subprocess_run w tr3 setting_rofi_command (_format_settings settings)
     = (C, out) ->
     select_setting w settings tr3
     = (Raise (SystemExit C),
        tr3 ++ [Run setting_rofi_command (_format_settings settings)]) /\
     main w (n + S fuel) argv tr0
     = (Raise (SystemExit C),
        tr3 ++ [Run setting_rofi_command (_format_settings settings)])).
Proof.
  intros HC Hreq Hget. split.
  - intro Hr. split.
    + rewrite select_tune_run, Hr. cbn [fst snd].
      rewrite (decode_tune_exit tunes out HC). reflexivity.
    + unfold main, search_and_display, bind.
      rewrite (requeries_search_loop Hreq (S fuel)).
      erewrite search_loop_exit by eassumption. reflexivity.
  - intros tune settings tr2 tr3 Hsel Hset Hr.
    assert (E : select_setting w settings tr3
                = (Raise (SystemExit C),
                   tr3 ++ [Run setting_rofi_command
                             (_format_settings settings)])).
    { rewrite select_setting_run, Hr. cbn [fst snd].
      rewrite (decode_setting_exit settings out HC). reflexivity. }
    split; [exact E|].
    unfold main, search_and_display, bind.
    rewrite (requeries_search_loop Hreq (S fuel)).
    erewrite search_loop_selected by eassumption.
    rewrite Hset, E. reflexivity.
Qed.

Lemma picker_exit_code_ends_program_witness :
  fst (main (session_world [(0%Z, lit "-1:maggie"); (1%Z, [])]) 2
         [lit "tunes.py"; lit "drowsy"] [])
  = Raise (SystemExit 1) /\
  fst (main (session_world [(0%Z, lit "1:Drowsy Maggie"); (130%Z, [])]) 1
         [lit "tunes.py"; lit "drowsy"] [])
  = Raise (SystemExit 130).
Proof.
  split.
  - assert (Hreq : requeries (session_world [(0%Z, lit "-1:maggie"); (1%Z, [])])
                     (join (lit " ") (tl [lit "tunes.py"; lit "drowsy"])) []
                     (lit "maggie")
                     [Get (SEARCH_EP (lit "drowsy")); FromString sample_markup;
                      Run tune_rofi_command
                        (_format_tunes [cooleys; drowsy_maggie])] 1).
    { eapply requeries_round; [reflexivity | reflexivity | apply requeries_none]. }
    destruct (picker_exit_code_ends_program [lit "tunes.py"; lit "drowsy"] 0 []
                (C := 1) ltac:(discriminate) Hreq eq_refl) as [Htune _].
    destruct (Htune eq_refl) as [_ Hmain].
    exact (f_equal (@fst _ _) Hmain).
  - destruct (picker_exit_code_ends_program
                (w := session_world [(0%Z, lit "1:Drowsy Maggie"); (130%Z, [])])
                [lit "tunes.py"; lit "drowsy"] 0 [] (C := 130) (tr := [])
                (q := lit "drowsy")
                ltac:(discriminate) (requeries_none _ _ _) eq_refl)
      as [_ Hsetting].
    destruct (Hsetting drowsy_maggie [edor_setting; dmaj_setting] _ _
                eq_refl eq_refl eq_refl) as [_ Hmain].
    exact (f_equal (@fst _ _) Hmain).
Defined.

(** Scenario D of the specification: on status 404 the fetch raises, and
    the call log holds the GET alone. *)
Example scenario_D :
  get_tune_settings (sample_world (mkResponse 404 sample_markup) [] [] [] [] [])
    (lit "50") []
  = (Raise (HTTPError 404), [Get (TUNES_EP (lit "50"))]).
Proof. reflexivity. Qed.

(** ** The conversion pipeline *)


(** A whole run: search, pick the second tune, pick the first setting,
    display it. *)
Example whole_run :
  main (session_world [(0%Z, lit "1:Drowsy Maggie"); (0%Z, lit "0:x")]) 1
    [lit "tunes.py"; lit "drowsy"] []
  = (Return tt,
     [Get (SEARCH_EP (lit "drowsy")); FromString sample_markup;
      Run tune_rofi_command (_format_tunes [cooleys; drowsy_maggie]);
      Get (TUNES_EP (lit "23")); FromString sample_markup;
      Run setting_rofi_command (_format_settings [edor_setting; dmaj_setting]);
      Popen PDF_VIEWER_CMD PIPE Inherit;
      Popen PS2PDF_CMD PIPE (StdinOf 6);
      Popen ABC2PS_CMD PIPE (StdinOf 7);
      Communicate 8 (Some (utf8 (setting_abc edor_setting)));
      Communicate 7 None;
      CloseStdin 6]).
Proof. reflexivity. Qed.

(** * Further properties of the script *)

(** ** Rendering the menus *)

Lemma lstrip_with_suffix (p : char -> bool) (s : str) :
  exists pre, s = pre ++ lstrip_with p s.
Proof.
  induction s as [|c r [pre IH]]; simpl; [exists []; reflexivity|].
  destruct (p c); [|exists []; reflexivity].
  exists (c :: pre). simpl. f_equal. exact IH.
Qed.

Lemma rstrip_with_prefix (p : char -> bool) (s : str) :
  exists suf, s = rstrip_with p s ++ suf.
Proof.
  unfold rstrip_with. destruct (lstrip_with_suffix p (rev s)) as [pre E].
  exists (rev pre). rewrite <- rev_app_distr, <- E. symmetry. apply rev_involutive.
Qed.

(** Stripping never adds a character. *)
Lemma strip_with_incl (p : char -> bool) (s : str) (c : char) :
  In c (strip_with p s) -> In c s.
Proof.
  unfold strip_with. intro H.
  destruct (rstrip_with_prefix p (lstrip_with p s)) as [suf E].
  destruct (lstrip_with_suffix p s) as [pre E'].
  rewrite E', E. apply in_or_app; right. apply in_or_app; left. exact H.
Qed.

(** The characters of a piece are characters of the string. *)
Lemma split_pieces_incl (sep : char) (s piece : str) (c : char) :
  In piece (split sep s) -> In c piece -> In c s.
Proof.
  revert piece; induction s as [|a r IH]; intros piece Hp Hc; simpl in Hp.
  - destruct Hp as [<-|[]]. exact Hc.
  - destruct (a =? sep)%N.
    + destruct Hp as [<-|Hp]; [destruct Hc|]. right. eapply IH; eassumption.
    + destruct (split sep r) as [|h t] eqn:E.
      * destruct Hp as [<-|[]]. destruct Hc as [->|[]]. left; reflexivity.
      * destruct Hp as [<-|Hp].
        -- destruct Hc as [->|Hc]; [left; reflexivity|].
           right. apply (IH h); [left; reflexivity | exact Hc].
        -- right. apply (IH piece); [right; exact Hp | exact Hc].
Qed.

Lemma format_tune_newline_free (tune : Tune) :
  newline_free (tune_name tune) -> newline_free (tune_type tune) ->
  newline_free (format_tune tune).
Proof.
  unfold newline_free, format_tune. intros Hn Ht H.
  repeat (apply in_app_or in H; destruct H as [H|H]); try tauto;
    cbv in H; repeat (destruct H as [H|H]; try discriminate H); exact H.
Qed.

Lemma format_opt_newline_free (o : option str) :
  (forall v, o = Some v -> newline_free v) -> newline_free (format_opt o).
Proof.
  destruct o as [v|]; intro H; [exact (H v eq_refl)|].
  intro Hin. cbv in Hin.
  repeat (destruct Hin as [Hin|Hin]; try discriminate Hin); exact Hin.
Qed.

Lemma format_setting_newline_free (setting : TuneSetting) :
  fields_newline_free setting -> newline_free (format_setting setting).
Proof.
  intro Hf.
  assert (Hid := @format_opt_newline_free (setting_id setting)
                   (fun v E => Hf v (or_introl E))).
  assert (Hm := @format_opt_newline_free (setting_meter setting)
                  (fun v E => Hf v (or_intror (or_introl E)))).
  assert (Hk := @format_opt_newline_free (setting_key setting)
                  (fun v E => Hf v (or_intror (or_intror E)))).
  unfold newline_free, format_setting in *. intro H.
  repeat (apply in_app_or in H; destruct H as [H|H]); try tauto;
    cbv in H; repeat (destruct H as [H|H]; try discriminate H); exact H.
Qed.

(** X1. A non-empty list of tunes whose names and types hold no newline
    is rendered as one menu line per tune, in the order of the list: the
    i-th line of the text given to the picker is the rendering of the i-th
    tune, so the index the picker returns is an index into the list. *)
Theorem tune_menu_has_one_line_per_tune (tunes : list Tune) :
  tunes <> [] ->
  (forall tune, In tune tunes ->
                newline_free (tune_name tune) /\ newline_free (tune_type tune)) ->
  split NL (_format_tunes tunes) = map format_tune tunes /\
  List.length (split NL (_format_tunes tunes)) = List.length tunes /\
  forall i,
    nth_error (split NL (_format_tunes tunes)) i
    = option_map format_tune (nth_error tunes i).
Proof.
  intros Hne Hclean.
  assert (E : split NL (_format_tunes tunes) = map format_tune tunes).
  { unfold _format_tunes. apply split_join.
    - destruct tunes; [congruence | discriminate].
    - apply Forall_forall. intros line Hin.
      apply in_map_iff in Hin. destruct Hin as (tune & <- & Hin).
      destruct (Hclean tune Hin). apply format_tune_newline_free; assumption. }
  rewrite E. repeat split.
  - apply length_map.
  - intro i. apply nth_error_map.
Qed.

Lemma tune_menu_has_one_line_per_tune_witness :
  split NL (_format_tunes [cooleys; drowsy_maggie])
  = map format_tune [cooleys; drowsy_maggie] /\
  List.length (split NL (_format_tunes [cooleys; drowsy_maggie])) = 2%nat /\
  forall i,
    nth_error (split NL (_format_tunes [cooleys; drowsy_maggie])) i
    = option_map format_tune (nth_error [cooleys; drowsy_maggie] i).
Proof.
  apply (tune_menu_has_one_line_per_tune (tunes := [cooleys; drowsy_maggie]));
    [discriminate|].
  intros tune [<-|[<-|[]]]; split; unfold newline_free; cbv;
    intro H; repeat (destruct H as [H|H]; try discriminate H); exact H.
Defined.

(** A name with a newline in it takes two lines of the menu, and the
    lines after it no longer stand at the index of their tune. *)
Example tune_menu_with_newline_in_name :
  List.length
    (split NL (_format_tunes
                 [mkTune (lit "The" ++ [NL] ++ lit "Kesh") (lit "55") (lit "jig");
                  cooleys]))
  = 3%nat.
Proof. reflexivity. Qed.

(** ** Settings as parsed *)

Lemma parse_settings_Forall2 (elements : list str) (settings : list TuneSetting) :
  parse_settings elements = Return settings ->
  Forall2 (fun element setting => parse_setting element = Return setting)
    elements settings.
Proof.
  revert settings; induction elements as [|element rest IH]; intros settings H;
    simpl in H.
  - inversion H. constructor.
  - destruct (parse_setting element) as [setting| |] eqn:E; cbn [obind] in H;
      try discriminate.
    destruct (parse_settings rest) as [settings'| |]; cbn [obind] in H;
      try discriminate.
    inversion H; subst. constructor; auto.
Qed.

(** What [get_tune_settings] returns was parsed from the notation blocks
    of the page it fetched. *)
Lemma get_tune_settings_returned (w : World) (tune_id : str) (tr : list Event)
  (settings : list TuneSetting) :
  fst (get_tune_settings w tune_id tr) = Return settings ->
  parse_settings
    (xpath_text_content w (page w tr (TUNES_EP tune_id)) BASE_SETTING_XPATH)
  = Return settings.
Proof.
  intro H.
  assert (Hex : forall tree status,
             extract_settings w tree <> Raise (HTTPError status)).
  { intros tree status. unfold extract_settings.
    destruct (parse_settings_cases
                (xpath_text_content w tree BASE_SETTING_XPATH))
      as [E | (l & E)]; rewrite E; discriminate. }
  destruct (@fetch_contract_intro _ w (TUNES_EP tune_id) (extract_settings w)
              (get_tune_settings w tune_id) tr Hex eq_refl)
    as (_ & Herr & Hok).
  destruct (Z.le_gt_cases 400 (status_code (requests_get w tr (TUNES_EP tune_id))));
    destruct (Z.lt_ge_cases (status_code (requests_get w tr (TUNES_EP tune_id))) 600);
    try (rewrite Hok in H by (unfold passes; lia); exact H).
  rewrite Herr in H by lia. discriminate H.
Qed.

(** The parsed fields of a setting come from within one line. *)
Lemma parse_setting_fields_newline_free (text : str) (setting : TuneSetting) :
  parse_setting text = Return setting -> fields_newline_free setting.
Proof.
  intro H. unfold parse_setting in H.
  destruct (scan_lines (split NL text) scan_init) as [st| |] eqn:E;
    cbn [obind] in H; try discriminate.
  inversion H; subst setting; clear H.
  destruct (scan_lines_cases (split NL text) scan_init)
    as [E' | (st' & E' & Habc)]; [congruence|].
  assert (st' = st) by congruence; subst st'. simpl in Habc.
  destruct (scan_lines_backed _ E scan_init_backed) as (Hid & Hm & Hk).
  assert (Hb : forall field key,
             backed field key (s_abc st) ->
             forall v, field = Some v -> newline_free v).
  { intros field key Hback v Hv Hin.
    destruct (Hback v Hv) as (line & Hline & x & rest & Hs & <-).
    rewrite Habc in Hline. apply filter_In in Hline. destruct Hline as [Hline _].
    pose proof (split_pieces_no_sep NL text) as Hall.
    rewrite Forall_forall in Hall. apply (Hall line Hline).
    apply (split_pieces_incl COLON line x);
      [rewrite Hs; right; left; reflexivity|].
    apply (strip_with_incl _ _ _ Hin). }
  intros v [Hv|[Hv|Hv]]; cbn in Hv; eauto.
Qed.

(** X2. The settings [get_tune_settings] returns, when there is at least
    one, are rendered as one menu line per setting, in order: a parsed id,
    key or meter never holds a newline, and an absent one is rendered as
    the word None. *)
Theorem setting_menu_has_one_line_per_setting (w : World) (tune_id : str)
  (tr : list Event) (settings : list TuneSetting) :
  fst (get_tune_settings w tune_id tr) = Return settings ->
  settings <> [] ->
  split NL (_format_settings settings) = map format_setting settings /\
  List.length (split NL (_format_settings settings)) = List.length settings.
Proof.
  intros H Hne. apply get_tune_settings_returned in H.
  apply parse_settings_Forall2 in H.
  assert (E : split NL (_format_settings settings) = map format_setting settings).
  { unfold _format_settings. apply split_join.
    - destruct settings; [congruence | discriminate].
    - apply Forall_forall. intros line Hin.
      apply in_map_iff in Hin. destruct Hin as (setting & <- & Hin).
      apply format_setting_newline_free.
      clear Hne. induction H as [|element s elements settings Hp _ IH];
        [destruct Hin|].
      destruct Hin as [->|Hin]; [|exact (IH Hin)].
      exact (parse_setting_fields_newline_free _ Hp). }
  rewrite E. split; [reflexivity | apply length_map].
Qed.

Lemma setting_menu_has_one_line_per_setting_witness :
  List.length
    (split NL (_format_settings
                 [edor_setting;
                  mkTuneSetting None None None
                    (lit "A B c d|" ++ [NL] ++ lit "d c B A|");
                  mkTuneSetting None None (Some (lit "Edor"))
                    (join [NL] [lit "K:Dmaj"; lit "d c B A|"; lit "K: Edor "])]))
  = 3%nat.
Proof.
  apply (setting_menu_has_one_line_per_setting (three_blocks_world [])
           (lit "50") []); [reflexivity | discriminate].
Defined.

Lemma parse_settings_raises_iff (elements : list str) :
  parse_settings elements = Raise IndexError
  <-> Exists (fun element => Exists bare_header (split NL element)) elements.
Proof.
  induction elements as [|element rest IH]; simpl.
  - split; [discriminate | intro H; inversion H].
  - rewrite Exists_cons, <- IH, <- parse_setting_raises_iff.
    destruct (parse_setting_cases element) as [E | (setting & E & _)];
      rewrite E; cbn [obind]; [tauto|].
    destruct (parse_settings_cases rest) as [E' | (settings & E')];
      rewrite E'; cbn [obind]; split; try tauto;
      try discriminate; intros [H|H]; discriminate H.
Qed.

Lemma get_tune_settings_passes (w : World) (tune_id : str) (tr : list Event) :
  passes (requests_get w tr (TUNES_EP tune_id)) ->
  get_tune_settings w tune_id tr
  = (parse_settings
       (xpath_text_content w (page w tr (TUNES_EP tune_id)) BASE_SETTING_XPATH),
     tr ++ [Get (TUNES_EP tune_id);
            FromString (content (requests_get w tr (TUNES_EP tune_id)))]).
Proof.
  intro H. unfold get_tune_settings, bind, get, html_fromstring, lift, page.
  rewrite (raise_for_status_passes _ H), <- app_assoc. reflexivity.
Qed.

(** X3. On the notation blocks the query finds in the fetched page:
    [get_tune_settings] raises [IndexError] exactly when the fetch passed
    [raise_for_status] and a line of some block is the bare letter X, M
    or K, and then the settings of all the other blocks are lost with it;
    and whenever it returns, no block has such a line and the result has
    one setting per block, in document order, each parsed from its
    block. *)
Theorem get_tune_settings_one_setting_per_block (w : World) (tune_id : str)
  (tr : list Event) :
  (fst (get_tune_settings w tune_id tr) = Raise IndexError
   <-> passes (requests_get w tr (TUNES_EP tune_id)) /\
       Exists (fun block => Exists bare_header (split NL block))
         (xpath_text_content w (page w tr (TUNES_EP tune_id))
            BASE_SETTING_XPATH)) /\
  (forall settings,
     fst (get_tune_settings w tune_id tr) = Return settings ->
     ~ Exists (fun block => Exists bare_header (split NL block))
         (xpath_text_content w (page w tr (TUNES_EP tune_id))
            BASE_SETTING_XPATH) /\
     Forall2 (fun block setting => parse_setting block = Return setting)
       (xpath_text_content w (page w tr (TUNES_EP tune_id)) BASE_SETTING_XPATH)
       settings).
Proof.
  split.
  - destruct (Z.le_gt_cases 400
                (status_code (requests_get w tr (TUNES_EP tune_id))));
      destruct (Z.lt_ge_cases
                  (status_code (requests_get w tr (TUNES_EP tune_id))) 600);
      try (rewrite get_tune_settings_passes by (unfold passes; lia);
           cbn [fst]; rewrite parse_settings_raises_iff;
           unfold passes; split; [intro; split; [lia | assumption] | tauto]).
    unfold get_tune_settings, bind, get.
    rewrite raise_for_status_raises by lia. cbn [fst].
    unfold passes. split; [discriminate | intros [Hp _]; lia].
  - intros settings H. apply get_tune_settings_returned in H.
    split; [|apply parse_settings_Forall2; exact H].
    intro Hbad. apply parse_settings_raises_iff in Hbad. congruence.
Qed.

Lemma get_tune_settings_one_setting_per_block_witness :
  fst (get_tune_settings bare_key_world (lit "50") []) = Raise IndexError /\
  Forall2 (fun block setting => parse_setting block = Return setting)
    (xpath_text_content (three_blocks_world [])
       (page (three_blocks_world []) [] (TUNES_EP (lit "50")))
       BASE_SETTING_XPATH)
    [edor_setting;
     mkTuneSetting None None None (lit "A B c d|" ++ [NL] ++ lit "d c B A|");
     mkTuneSetting None None (Some (lit "Edor"))
       (join [NL] [lit "K:Dmaj"; lit "d c B A|"; lit "K: Edor "])].
Proof.
  split.
  - apply (proj1 (get_tune_settings_one_setting_per_block bare_key_world
                    (lit "50") [])).
    split; [unfold passes; simpl; lia|].
    constructor. right. left. right. right. reflexivity.
  - exact (proj2 (proj2 (get_tune_settings_one_setting_per_block
                           (three_blocks_world []) (lit "50") []) _ eq_refl)).
Defined.

(** ** Header fields *)

Lemma before_first_colon_split (line k : str) (t : list str) :
  split COLON line = k :: t -> before_first_colon line = k.
Proof. unfold before_first_colon. intros ->. reflexivity. Qed.

(** After one line a field is absent exactly when it was absent before
    and the line does not carry its header name. *)
Lemma scan_line_absent (st st' : Scan) (line : str) :
  scan_line st line = Return st' ->
  (s_id st' = None <-> s_id st = None /\ before_first_colon line <> lit "X") /\
  (s_meter st' = None <-> s_meter st = None /\ before_first_colon line <> lit "M") /\
  (s_key st' = None <-> s_key st = None /\ before_first_colon line <> lit "K").
Proof.
  assert (Hcases :
            forall k st1,
              (let! st2 :=
                 (if str_eqb k (lit "X") then
                    let! v := st1 in
                    Return (mkScan (Some (strip v)) (s_meter st) (s_key st)
                              (s_abc st))
                  else if str_eqb k (lit "M") then
                    let! v := st1 in
                    Return (mkScan (s_id st) (Some (strip v)) (s_key st)
                              (s_abc st))
                  else if str_eqb k (lit "K") then
                    let! v := st1 in
                    Return (mkScan (s_id st) (s_meter st) (Some (strip v))
                              (s_abc st))
                  else Return st) in
               Return (mkScan (s_id st2) (s_meter st2) (s_key st2)
                         (s_abc st2 ++ [line]))) = Return st' ->
              (s_id st' = None <-> s_id st = None /\ k <> lit "X") /\
              (s_meter st' = None <-> s_meter st = None /\ k <> lit "M") /\
              (s_key st' = None <-> s_key st = None /\ k <> lit "K")).
  { intros k st1 H.
    destruct (str_eqb k (lit "X")) eqn:EX;
      [apply str_eqb_eq in EX; subst k
      |destruct (str_eqb k (lit "M")) eqn:EM;
       [apply str_eqb_eq in EM; subst k
       |destruct (str_eqb k (lit "K")) eqn:EK;
        [apply str_eqb_eq in EK; subst k|]]];
      try (destruct st1 as [v| |]; cbn [obind] in H; try discriminate H);
      cbn [obind] in H; inversion H; subst st'; clear H; cbn;
      repeat split;
      first [ tauto
            | discriminate
            | intros [_ Habs]; exfalso; apply Habs; reflexivity
            | intro; split; [assumption | discriminate]
            | intro Habs; subst k; cbv in EX, EM, EK; discriminate ]. }
  destruct (list_eq_dec N.eq_dec line []) as [->|Hne].
  - intro H. inversion H; subst st'.
    repeat split;
      first [tauto | assumption | intro Habs; cbv in Habs; discriminate Habs].
  - rewrite (scan_line_nonempty st Hne).
    destruct (split COLON line) as [|k t] eqn:E;
      [destruct (split_not_nil _ _ E)|].
    rewrite (before_first_colon_split line E), subscript_head. cbn [obind].
    apply Hcases.
Qed.

Lemma scan_lines_absent (lines : list str) (st st' : Scan) :
  scan_lines lines st = Return st' ->
  (s_id st' = None
   <-> s_id st = None /\ Forall (fun l => before_first_colon l <> lit "X") lines) /\
  (s_meter st' = None
   <-> s_meter st = None /\ Forall (fun l => before_first_colon l <> lit "M") lines) /\
  (s_key st' = None
   <-> s_key st = None /\ Forall (fun l => before_first_colon l <> lit "K") lines).
Proof.
  revert st; induction lines as [|line rest IH]; intros st H; simpl in H.
  - inversion H; subst st'. rewrite !Forall_nil_iff. tauto.
  - destruct (scan_line st line) as [st1| |] eqn:E; cbn [obind] in H;
      try discriminate.
    destruct (scan_line_absent _ _ E) as (Hi & Hm & Hk).
    destruct (IH st1 H) as (Hi' & Hm' & Hk').
    rewrite Hi', Hm', Hk', Hi, Hm, Hk, !Forall_cons_iff. tauto.
Qed.

(** X4. For a block that yields a setting, the id is absent (None)
    exactly when no line of the block has X before its first colon, and
    likewise the meter for M and the key for K: a field, once set by a
    header line, is never reset. *)
Theorem field_absent_iff_no_header_line (text : str) (setting : TuneSetting) :
  parse_setting text = Return setting ->
  (setting_id setting = None
   <-> Forall (fun line => before_first_colon line <> lit "X") (split NL text)) /\
  (setting_meter setting = None
   <-> Forall (fun line => before_first_colon line <> lit "M") (split NL text)) /\
  (setting_key setting = None
   <-> Forall (fun line => before_first_colon line <> lit "K") (split NL text)).
Proof.
  intro H. unfold parse_setting in H.
  destruct (scan_lines (split NL text) scan_init) as [st| |] eqn:E;
    cbn [obind] in H; try discriminate.
  inversion H; subst setting; clear H. cbn.
  destruct (scan_lines_absent _ _ E) as (Hi & Hm & Hk). cbn in Hi, Hm, Hk.
  tauto.
Qed.

Lemma field_absent_iff_no_header_line_witness :
  (@None str = None
   <-> Forall (fun line => before_first_colon line <> lit "X")
         (split NL (join [NL] [lit "K:Dmaj"; lit "d c B A|"; lit "K: Edor "]))) /\
  (@None str = None
   <-> Forall (fun line => before_first_colon line <> lit "M")
         (split NL (join [NL] [lit "K:Dmaj"; lit "d c B A|"; lit "K: Edor "]))) /\
  (Some (lit "Edor") = None
   <-> Forall (fun line => before_first_colon line <> lit "K")
         (split NL (join [NL] [lit "K:Dmaj"; lit "d c B A|"; lit "K: Edor "]))).
Proof.
  exact (field_absent_iff_no_header_line
           (join [NL] [lit "K:Dmaj"; lit "d c B A|"; lit "K: Edor "])
           (setting := mkTuneSetting None None (Some (lit "Edor"))
                         (join [NL] [lit "K:Dmaj"; lit "d c B A|";
                                     lit "K: Edor "]))
           eq_refl).
Defined.

(** ** Parsing the notation again *)

Lemma scan_lines_filter (lines : list str) (st : Scan) :
  scan_lines (filter nonempty lines) st = scan_lines lines st.
Proof.
  revert st; induction lines as [|line rest IH]; intro st; [reflexivity|].
  destruct line as [|c r]; [exact (IH st)|].
  cbn [filter nonempty scan_lines].
  destruct (scan_line st (c :: r)); cbn [obind]; auto.
Qed.

(** X5. The notation of a setting parses to the same setting: the scan
    skips empty lines and keeps all others, so parsing what it kept finds
    the same id, meter and key and keeps the same text. *)
Theorem notation_parses_to_same_setting (text : str) (setting : TuneSetting) :
  parse_setting text = Return setting ->
  parse_setting (setting_abc setting) = Return setting.
Proof.
  intro H.
  destruct (parse_setting_cases text) as [E | (setting' & E & Habc)];
    [congruence|].
  assert (setting' = setting) by congruence; subst setting'.
  rewrite Habc. rewrite <- H. unfold parse_setting.
  rewrite <- (scan_lines_filter (split NL text)).
  destruct (filter nonempty (split NL text)) as [|x kept] eqn:Ek; [reflexivity|].
  rewrite <- Ek.
  rewrite (split_join_kept text x) by (rewrite Ek; left; reflexivity).
  reflexivity.
Qed.

Lemma notation_parses_to_same_setting_witness :
  parse_setting (lit "X:1" ++ [NL] ++ lit "A B c d|")
  = Return (mkTuneSetting (Some (lit "1")) None None
              (lit "X:1" ++ [NL] ++ lit "A B c d|")).
Proof.
  exact (notation_parses_to_same_setting blank_line_block
           (setting := mkTuneSetting (Some (lit "1")) None None
                         (lit "X:1" ++ [NL] ++ lit "A B c d|"))
           eq_refl).
Defined.

(** ** A header line after others *)

Lemma split_snoc (body line : str) :
  newline_free line ->
  split NL (body ++ NL :: line) = split NL body ++ [line].
Proof.
  intro Hl. induction body as [|c r IH]; cbn [app split].
  - rewrite N.eqb_refl, (@split_no_sep NL line Hl). reflexivity.
  - rewrite IH. destruct (c =? NL)%N; [reflexivity|].
    pose proof (split_not_nil NL r) as Hn.
    destruct (split NL r) as [|h t]; [congruence | reflexivity].
Qed.

Lemma scan_lines_app (l1 l2 : list str) (st : Scan) :
  scan_lines (l1 ++ l2) st
  = (let! st1 := scan_lines l1 st in scan_lines l2 st1).
Proof.
  revert st; induction l1 as [|line rest IH]; intro st; [reflexivity|].
  cbn [app scan_lines]. destruct (scan_line st line); cbn [obind]; auto.
Qed.

Lemma parse_setting_snoc_header (body key value : str) (s0 : TuneSetting) :
  parse_setting body = Return s0 ->
  key <> [] -> ~ In COLON key -> newline_free key ->
  ~ In COLON value -> newline_free value ->
  parse_setting (body ++ NL :: key ++ COLON :: value)
  = Return (mkTuneSetting
              (if str_eqb key (lit "X") then Some (strip value)
               else setting_id s0)
              (if str_eqb key (lit "X") then setting_meter s0
               else if str_eqb key (lit "M") then Some (strip value)
                    else setting_meter s0)
              (if str_eqb key (lit "X") then setting_key s0
               else if str_eqb key (lit "M") then setting_key s0
                    else if str_eqb key (lit "K") then Some (strip value)
                         else setting_key s0)
              (join [NL] (filter nonempty (split NL body)
                            ++ [key ++ COLON :: value]))).
Proof.
  intros H Hne Hkc Hkn Hvc Hvn. unfold parse_setting in *.
  assert (Hline : newline_free (key ++ COLON :: value)).
  { unfold newline_free in *. intro Hin. apply in_app_or in Hin.
    destruct Hin as [Hin|[Hin|Hin]]; [tauto | discriminate Hin | tauto]. }
  rewrite (split_snoc body Hline), scan_lines_app.
  destruct (scan_lines_cases (split NL body) scan_init)
    as [E | (st & E & Habc)]; rewrite E in *; cbn [obind] in *;
    [discriminate H|].
  inversion H; subst s0; clear H. cbn [scan_lines setting_id setting_meter
                                        setting_key].
  rewrite (@scan_line_header st key value Hkc Hvc Hne). cbn [obind].
  cbn [s_id s_meter s_key s_abc]. rewrite Habc. reflexivity.
Qed.

(** X6. A header line at the end of a block overrides what earlier lines
    set: after a block that yields a setting, one more line ["K:value"]
    (the value without colon) makes the key the stripped value, whatever
    the key was, leaves id and meter as they were, and adds the line to
    the notation; likewise for ["X:value"] and ["M:value"]. *)
Theorem last_header_line_wins (body value : str) (s0 : TuneSetting) :
  parse_setting body = Return s0 ->
  ~ In COLON value -> newline_free value ->
  parse_setting (body ++ NL :: lit "X:" ++ value)
  = Return (mkTuneSetting (Some (strip value)) (setting_meter s0)
              (setting_key s0)
              (join [NL] (filter nonempty (split NL body)
                            ++ [lit "X:" ++ value]))) /\
  parse_setting (body ++ NL :: lit "M:" ++ value)
  = Return (mkTuneSetting (setting_id s0) (Some (strip value))
              (setting_key s0)
              (join [NL] (filter nonempty (split NL body)
                            ++ [lit "M:" ++ value]))) /\
  parse_setting (body ++ NL :: lit "K:" ++ value)
  = Return (mkTuneSetting (setting_id s0) (setting_meter s0)
              (Some (strip value))
              (join [NL] (filter nonempty (split NL body)
                            ++ [lit "K:" ++ value]))).
Proof.
  intros H Hvc Hvn.
  assert (Hk : forall key,
             key = lit "X" \/ key = lit "M" \/ key = lit "K" ->
             key <> [] /\ ~ In COLON key /\ newline_free key).
  { intros key [->|[->| ->]]; repeat split; try discriminate;
      intro Hin; cbv in Hin;
      repeat (destruct Hin as [Hin|Hin]; try discriminate Hin); exact Hin. }
  repeat split.
  - destruct (Hk (lit "X")) as (H1 & H2 & H3); [tauto|].
    exact (parse_setting_snoc_header body H H1 H2 H3 Hvc Hvn).
  - destruct (Hk (lit "M")) as (H1 & H2 & H3); [tauto|].
    exact (parse_setting_snoc_header body H H1 H2 H3 Hvc Hvn).
  - destruct (Hk (lit "K")) as (H1 & H2 & H3); [tauto|].
    exact (parse_setting_snoc_header body H H1 H2 H3 Hvc Hvn).
Qed.

Lemma last_header_line_wins_witness :
  parse_setting (lit "K:Dmaj" ++ NL :: lit "K:" ++ lit " Edor ")
  = Return (mkTuneSetting None None (Some (lit "Edor"))
              (join [NL] [lit "K:Dmaj"; lit "K: Edor "])).
Proof.
  assert (Hc : ~ In COLON (lit " Edor ")).
  { intro Hin. cbv in Hin.
    repeat (destruct Hin as [Hin|Hin]; try discriminate Hin); exact Hin. }
  assert (Hn : newline_free (lit " Edor ")).
  { intro Hin. cbv in Hin.
    repeat (destruct Hin as [Hin|Hin]; try discriminate Hin); exact Hin. }
  exact (proj2 (proj2
           (last_header_line_wins (lit "K:Dmaj")
              (s0 := mkTuneSetting None None (Some (lit "Dmaj")) (lit "K:Dmaj"))
              eq_refl Hc Hn))).
Defined.

(** ** Selection: edge cases *)

Lemma subscript_nil (A : Type) (i : Z) : subscript (@nil A) i = Raise IndexError.
Proof.
  unfold subscript, getitem. cbn [List.length].
  destruct (i <? 0)%Z; [destruct (0 <=? i + Z.of_nat 0)%Z|];
    try rewrite nth_error_nil; reflexivity.
Qed.

(** X7. From an empty list nothing is selected: whatever the picker
    answers, [select_tune] and [select_setting] called on the empty list
    raise. A search without results and a tune page without notation
    blocks cannot lead to a selection. *)
Theorem nothing_is_selected_from_empty_list (w : World) (tr : list Event) :
  (exists e, fst (select_tune w [] tr) = Raise e) /\
  (exists e, fst (select_setting w [] tr) = Raise e).
Proof.
  rewrite select_tune_run, select_setting_run. cbn [fst].
  split.
  - generalize (subprocess_run w tr tune_rofi_command (_format_tunes [])).
    intros [rc out]. cbn [fst snd]. unfold decode_tune.
    destruct (negb (rc =? 0)%Z); [eauto|].
    pose proof (split_not_nil COLON out) as Hn.
    destruct (split COLON out) as [|s0 t]; [congruence|].
    rewrite subscript_head. cbn [obind]. unfold int_of.
    destruct (int s0) as [index|]; cbn [obind]; [|eauto].
    destruct (index <? 0)%Z; [|rewrite subscript_nil; eauto].
    pose proof (@subscript_not_pending _ (s0 :: t) 1) as Hp.
    destruct (subscript (s0 :: t) 1); cbn [obind]; eauto. congruence.
  - generalize (subprocess_run w tr setting_rofi_command (_format_settings [])).
    intros [rc out]. cbn [fst snd]. unfold decode_setting.
    destruct (negb (rc =? 0)%Z); [eauto|].
    pose proof (split_not_nil COLON out) as Hn.
    destruct (split COLON out) as [|s0 t]; [congruence|].
    rewrite subscript_head. cbn [obind]. unfold int_of.
    destruct (int s0) as [index|]; cbn [obind]; [|eauto].
    destruct (index <? 0)%Z; [|rewrite subscript_nil]; eauto.
Qed.

(** X8. Only the text before the first colon of the reply decides what is
    selected: two replies with the same exit code and the same text before
    the first colon make [select_setting] end the same way, and make
    [select_tune] return the same tune when it returns one. The text after
    the colon is never compared with the candidates. *)
Theorem selection_reads_only_the_index (w w' : World) (tr tr' : list Event)
  (tunes : list Tune) (settings : list TuneSetting) (rc : Z)
  (index_text text text' : str) :
  ~ In COLON index_text ->
  subprocess_run w tr tune_rofi_command (_format_tunes tunes)
  = (rc, index_text ++ COLON :: text) ->
  subprocess_run w' tr' tune_rofi_command (_format_tunes tunes)
  = (rc, index_text ++ COLON :: text') ->
  subprocess_run w tr setting_rofi_command (_format_settings settings)
  = (rc, index_text ++ COLON :: text) ->
  subprocess_run w' tr' setting_rofi_command (_format_settings settings)
  = (rc, index_text ++ COLON :: text') ->
  fst (select_setting w settings tr) = fst (select_setting w' settings tr') /\
  forall tune,
    fst (select_tune w tunes tr) = Return tune ->
    fst (select_tune w' tunes tr') = Return tune.
Proof.
  intros Hc Ht Ht' Hs Hs'.
  rewrite !select_tune_run, !select_setting_run, Ht, Ht', Hs, Hs'.
  cbn [fst snd]. unfold decode_setting, decode_tune.
  rewrite !(@split_app_sep COLON index_text _ Hc), !subscript_head.
  cbn [obind]. split; [reflexivity|].
  intro tune. destruct (negb (rc =? 0)%Z); [discriminate|].
  destruct (int_of index_text) as [index| |]; cbn [obind]; try discriminate.
  destruct (index <? 0)%Z; [|auto].
  destruct (subscript (index_text :: split COLON text) 1); cbn [obind];
    discriminate.
Qed.

Lemma selection_reads_only_the_index_witness :
  fst (select_setting (session_world [(0%Z, lit "1:Drowsy Maggie")])
         [edor_setting; dmaj_setting] [])
  = fst (select_setting (session_world [(0%Z, lit "1:anything: else")])
           [edor_setting; dmaj_setting] []) /\
  forall tune,
    fst (select_tune (session_world [(0%Z, lit "1:Drowsy Maggie")])
           [cooleys; drowsy_maggie] []) = Return tune ->
    fst (select_tune (session_world [(0%Z, lit "1:anything: else")])
           [cooleys; drowsy_maggie] []) = Return tune.
Proof.
  apply (@selection_reads_only_the_index
           (session_world [(0%Z, lit "1:Drowsy Maggie")])
           (session_world [(0%Z, lit "1:anything: else")])
           [] [] [cooleys; drowsy_maggie] [edor_setting; dmaj_setting] 0%Z
           (lit "1") (lit "Drowsy Maggie") (lit "anything: else"));
    try reflexivity.
  intro Hin. cbv in Hin.
  repeat (destruct Hin as [Hin|Hin]; try discriminate Hin); exact Hin.
Defined.

(** ** The types of a search *)

Lemma lstrip_with_head (p : char -> bool) (s : str) (x : char) (r : str) :
  lstrip_with p s = x :: r -> p x = false.
Proof.
  induction s as [|c s IH]; simpl; [discriminate|].
  destruct (p c) eqn:E; [exact IH|]. intro H. inversion H; subst. exact E.
Qed.

Lemma strip_with_head (p : char -> bool) (s : str) (x : char) (r : str) :
  strip_with p s = x :: r -> p x = false.
Proof.
  unfold strip_with. intro H.
  destruct (rstrip_with_prefix p (lstrip_with p s)) as [suf E].
  rewrite H in E. exact (lstrip_with_head p s E).
Qed.

Lemma strip_with_last (p : char -> bool) (s : str) (x : char) (r : str) :
  strip_with p s = r ++ [x] -> p x = false.
Proof.
  unfold strip_with, rstrip_with. intro H.
  apply (f_equal (@rev char)) in H.
  rewrite rev_involutive, rev_app_distr in H.
  exact (lstrip_with_head p _ H).
Qed.

Lemma zip3_In_third (A B C : Type) (a : list A) (b : list B) (c : list C)
  (x : A) (y : B) (z : C) :
  In (x, y, z) (zip3 a b c) -> In z c.
Proof.
  revert b c; induction a as [|x' a IH]; intros [|y' b] [|z' c]; simpl;
    try tauto.
  intros [H|H]; [inversion H; auto | right; eapply IH; eassumption].
Qed.

(** X9. No tune that [get_search_tunes] returns has a type that starts or
    ends with a newline. *)
Theorem search_types_have_no_outer_newline (w : World) (query : str)
  (tr : list Event) (tunes : list Tune) (tune : Tune) :
  fst (get_search_tunes w query tr) = Return tunes ->
  In tune tunes ->
  (forall rest, tune_type tune <> NL :: rest) /\
  (forall rest, tune_type tune <> rest ++ [NL]).
Proof.
  intros H Hin.
  destruct (@fetch_contract_intro _ w (SEARCH_EP query) (extract_search w)
              (get_search_tunes w query) tr
              ltac:(intros; discriminate) eq_refl) as (_ & Herr & Hok).
  assert (E : extract_search w (page w tr (SEARCH_EP query)) = Return tunes).
  { destruct (Z.le_gt_cases 400
                (status_code (requests_get w tr (SEARCH_EP query))));
      destruct (Z.lt_ge_cases
                  (status_code (requests_get w tr (SEARCH_EP query))) 600);
      try (rewrite Hok in H by (unfold passes; lia); exact H).
    rewrite Herr in H by lia. discriminate H. }
  unfold extract_search in E. inversion E as [Et]. rewrite <- Et in Hin.
  apply in_map_iff in Hin. destruct Hin as ([[n i] t] & <- & Hin).
  apply zip3_In_third in Hin. apply in_map_iff in Hin.
  destruct Hin as (raw & <- & _). cbn [tune_of tune_type].
  split; intros rest Habs.
  - apply strip_with_head in Habs. discriminate Habs.
  - apply strip_with_last in Habs. discriminate Habs.
Qed.

Lemma search_types_have_no_outer_newline_witness :
  (forall rest, tune_type cooleys <> NL :: rest) /\
  (forall rest, tune_type cooleys <> rest ++ [NL]).
Proof.
  apply (search_types_have_no_outer_newline (three_blocks_world [])
           (lit "reel") [] (tunes := [cooleys; drowsy_maggie]));
    [reflexivity | left; reflexivity].
Defined.

(** ** The program as a whole *)

Lemma display_abc_run (w : World) (abc : str) (tr : list Event) :
  display_abc w abc tr
  = (Return tt,
     tr ++ [Popen PDF_VIEWER_CMD PIPE Inherit;
            Popen PS2PDF_CMD PIPE (StdinOf (List.length tr));
            Popen ABC2PS_CMD PIPE (StdinOf (S (List.length tr)));
            Communicate (S (S (List.length tr))) (Some (encode_utf8 w abc));
            Communicate (S (List.length tr)) None;
            CloseStdin (List.length tr)]).
Proof.
  unfold display_abc, bind, popen, communicate, close_stdin.
  rewrite !length_app. cbn [List.length].
  replace (List.length tr + 1)%nat with (S (List.length tr)) by lia.
  replace (S (List.length tr) + 1)%nat with (S (S (List.length tr))) by lia.
  rewrite <- !app_assoc. reflexivity.
Qed.

(** X10. A reply with a negative index sends the loop into a new round
    whose query is the text of the reply between its first colon and the
    next colon, or the end of the reply: the next call is the GET of the
    search page for that query. *)
Theorem requery_starts_a_new_search (w : World) (fuel : nat) (q : str)
  (tr tr1 : list Event) (tunes : list Tune) (k : Z) (text : str) :
  get_search_tunes w q tr = (Return tunes, tr1) ->
  subprocess_run w tr1 tune_rofi_command (_format_tunes tunes)
  = (0%Z, Z_to_str k ++ COLON :: text) ->
  (k < 0)%Z ->
  search_loop w (S (S fuel)) q tr
  = search_loop w (S fuel) (before_first_colon text)
      (tr1 ++ [Run tune_rofi_command (_format_tunes tunes)]) /\
  exists rest,
    snd (search_loop w (S (S fuel)) q tr)
    = tr1 ++ Run tune_rofi_command (_format_tunes tunes)
          :: Get (SEARCH_EP (before_first_colon text)) :: rest.
Proof.
  intros Hget Hr Hk.
  assert (E : search_loop w (S (S fuel)) q tr
              = search_loop w (S fuel) (before_first_colon text)
                  (tr1 ++ [Run tune_rofi_command (_format_tunes tunes)])).
  { erewrite search_loop_round by eassumption.
    rewrite select_tune_run, Hr. cbn [fst snd].
    rewrite decode_tune_reply. destruct (Z.ltb_spec k 0); [|lia].
    reflexivity. }
  split; [exact E|]. rewrite E.
  destruct (search_loop_first_event w fuel (before_first_colon text)
              (tr1 ++ [Run tune_rofi_command (_format_tunes tunes)]))
    as [rest Hrest].
  exists rest. rewrite Hrest, <- app_assoc. reflexivity.
Qed.

Lemma requery_starts_a_new_search_witness :
  exists rest,
    snd (search_loop (session_world [(0%Z, lit "-1:Planxty: Irwin")]) 2
           (lit "maggie") [])
    = [Get (SEARCH_EP (lit "maggie")); FromString sample_markup]
        ++ Run tune_rofi_command (_format_tunes [cooleys; drowsy_maggie])
        :: Get (SEARCH_EP (lit "Planxty")) :: rest.
Proof.
  apply (@requery_starts_a_new_search
           (session_world [(0%Z, lit "-1:Planxty: Irwin")]) 0 (lit "maggie") []
           [Get (SEARCH_EP (lit "maggie")); FromString sample_markup]
           [cooleys; drowsy_maggie] (-1) (lit "Planxty: Irwin"));
    [reflexivity | reflexivity | lia].
Defined.

(** X11. A run that succeeds. After any number of rounds ended by a new
    query, the search returns tunes, the picker replies with an index
    into them, the page of the tune at that index returns settings, and
    the picker replies with an index into those. Then the program
    returns, and after the second run of the picker its calls are the six
    calls of [display_abc] on the notation of the setting at that index:
    the loop ends with the first tune selected, the tune page fetched is
    that of the selected tune's id. *)
Theorem run_displays_selected_setting (w : World) (argv : list str) (q : str)
  (tr0 tr tr1 tr3 : list Event) (n fuel : nat) (tunes : list Tune)
  (tune : Tune) (settings : list TuneSetting) (setting : TuneSetting)
  (k j : Z) (text text' : str) :
  requeries w (join (lit " ") (tl argv)) tr0 q tr n ->
  get_search_tunes w q tr = (Return tunes, tr1) ->
  subprocess_run w tr1 tune_rofi_command (_format_tunes tunes)
  = (0%Z, Z_to_str k ++ COLON :: text) ->
  (0 <= k)%Z -> nth_error tunes (Z.to_nat k) = Some tune ->
  get_tune_settings w (tune_id tune)
    (tr1 ++ [Run tune_rofi_command (_format_tunes tunes)])
  = (Return settings, tr3) ->
  subprocess_run w tr3 setting_rofi_command (_format_settings settings)
  = (0%Z, Z_to_str j ++ COLON :: text') ->
  (0 <= j)%Z -> nth_error settings (Z.to_nat j) = Some setting ->
  main w (n + S fuel) argv tr0
  = (Return tt,
     tr3 ++ [Run setting_rofi_command (_format_settings settings);
             Popen PDF_VIEWER_CMD PIPE Inherit;
             Popen PS2PDF_CMD PIPE (StdinOf (S (List.length tr3)));
             Popen ABC2PS_CMD PIPE (StdinOf (S (S (List.length tr3))));
             Communicate (S (S (S (List.length tr3))))
               (Some (encode_utf8 w (setting_abc setting)));
             Communicate (S (S (List.length tr3))) None;
             CloseStdin (S (List.length tr3))]).
Proof.
  intros Hreq Hget Hr Hk Hnth Hset Hr' Hj Hnth'.
  assert (Hsub : forall (A : Type) (l : list A) (i : Z) (x : A),
             (0 <= i)%Z -> nth_error l (Z.to_nat i) = Some x ->
             subscript l i = Return x).
  { intros A l i x Hi Hx. unfold subscript, getitem.
    destruct (Z.ltb_spec i 0); [lia|]. rewrite Hx. reflexivity. }
  assert (Hsel : select_tune w tunes tr1
                 = (Return tune,
                    tr1 ++ [Run tune_rofi_command (_format_tunes tunes)])).
  { rewrite select_tune_run, Hr. cbn [fst snd]. rewrite decode_tune_reply.
    destruct (Z.ltb_spec k 0); [lia|]. rewrite (Hsub _ _ _ _ Hk Hnth).
    reflexivity. }
  assert (Hsel' : select_setting w settings tr3
                  = (Return setting,
                     tr3 ++ [Run setting_rofi_command
                               (_format_settings settings)])).
  { rewrite select_setting_run, Hr'. cbn [fst snd].
    rewrite decode_setting_reply.
    destruct (Z.ltb_spec j 0); [lia|]. rewrite (Hsub _ _ _ _ Hj Hnth').
    reflexivity. }
  unfold main, search_and_display, bind.
  rewrite (requeries_search_loop Hreq (S fuel)).
  erewrite search_loop_selected by eassumption.
  rewrite Hset, Hsel', display_abc_run.
  rewrite length_app. cbn [List.length].
  replace (List.length tr3 + 1)%nat with (S (List.length tr3)) by lia.
  rewrite <- app_assoc. reflexivity.
Qed.

Lemma run_displays_selected_setting_witness :
  fst (main (session_world [(0%Z, lit "-1:maggie"); (0%Z, lit "1:Drowsy Maggie");
                            (0%Z, lit "0:x")]) 2
         [lit "tunes.py"; lit "drowsy"] [])
  = Return tt.
Proof.
  assert (Hreq : requeries
                   (session_world [(0%Z, lit "-1:maggie");
                                   (0%Z, lit "1:Drowsy Maggie"); (0%Z, lit "0:x")])
                   (join (lit " ") (tl [lit "tunes.py"; lit "drowsy"])) []
                   (lit "maggie")
                   [Get (SEARCH_EP (lit "drowsy")); FromString sample_markup;
                    Run tune_rofi_command
                      (_format_tunes [cooleys; drowsy_maggie])] 1).
  { eapply requeries_round; [reflexivity | reflexivity | apply requeries_none]. }
  exact (f_equal (@fst _ _)
           (@run_displays_selected_setting _ _ _ _ _ _ _ _ 0
              [cooleys; drowsy_maggie] drowsy_maggie
              [edor_setting; dmaj_setting] edor_setting 1 0
              (lit "Drowsy Maggie") (lit "x")
              Hreq eq_refl eq_refl ltac:(lia) eq_refl eq_refl eq_refl
              ltac:(lia) eq_refl)).
Defined.

Lemma search_loop_raises (w : World) (fuel : nat) (q : str)
  (tr tr' : list Event) (e : exn) :
  (tunes <- get_search_tunes w q ;; select_tune w tunes) tr = (Raise e, tr') ->
  (forall q', e <> SearchException q') ->
  search_loop w (S fuel) q tr = (Raise e, tr').
Proof.
  intros H He. cbn [search_loop]. unfold try_except_SearchException.
  rewrite H. destruct e; try reflexivity. destruct (He query eq_refl).
Qed.

Lemma search_loop_returns (w : World) (fuel : nat) (q : str)
  (tr tr' : list Event) (tune : Tune) :
  (tunes <- get_search_tunes w q ;; select_tune w tunes) tr = (Return tune, tr') ->
  search_loop w (S fuel) q tr = (Return tune, tr').
Proof.
  intro H. cbn [search_loop]. unfold try_except_SearchException.
  rewrite H. reflexivity.
Qed.

(** X12. Only [SearchException] is caught, and only around the search
    and the tune selection. Any other exception raised there (a fetch
    error, an [IndexError], a [ValueError]) and any such exception raised
    by the fetch of the tune page or by the setting selection ends the
    program with that exception and the call log as it was: nothing is
    retried. *)
Theorem other_exceptions_end_the_program (w : World) (argv : list str)
  (q : str) (tr0 tr tr' : list Event) (n fuel : nat) (e : exn) :
  requeries w (join (lit " ") (tl argv)) tr0 q tr n ->
  (forall q', e <> SearchException q') ->
  ((tunes <- get_search_tunes w q ;; select_tune w tunes) tr = (Raise e, tr') ->
   main w (n + S fuel) argv tr0 = (Raise e, tr')) /\
  (forall (tune : Tune) (tr1 : list Event),
     (tunes <- get_search_tunes w q ;; select_tune w tunes) tr
     = (Return tune, tr1) ->
     (settings <- get_tune_settings w (tune_id tune) ;;
      select_setting w settings) tr1 = (Raise e, tr') ->
     main w (n + S fuel) argv tr0 = (Raise e, tr')).
Proof.
  intros Hreq He. split.
  - intro H. unfold main, search_and_display, bind.
    rewrite (requeries_search_loop Hreq (S fuel)).
    rewrite (search_loop_raises w fuel q tr H He). reflexivity.
  - intros tune tr1 H H'. unfold main, search_and_display, bind.
    rewrite (requeries_search_loop Hreq (S fuel)).
    rewrite (search_loop_returns w fuel q tr H).
    unfold bind in H'.
    destruct (get_tune_settings w (tune_id tune) tr1) as [[settings| e1 |] tr2].
    + rewrite H'. reflexivity.
    + inversion H'; subst. reflexivity.
    + discriminate H'.
Qed.

Lemma other_exceptions_end_the_program_witness :
  main (unavailable_world []) 1 [lit "tunes.py"; lit "drowsy"] []
  = (Raise (HTTPError 503), [Get (SEARCH_EP (lit "drowsy"))]) /\
  main (session_world [(0%Z, lit "0:Cooley's"); (0%Z, lit "-1:typed")]) 1
    [lit "tunes.py"; lit "drowsy"] []
  = (Raise (ValueError (lit "Must select a valid setting!")),
     [Get (SEARCH_EP (lit "drowsy")); FromString sample_markup;
      Run tune_rofi_command (_format_tunes [cooleys; drowsy_maggie]);
      Get (TUNES_EP (lit "50")); FromString sample_markup;
      Run setting_rofi_command
        (_format_settings [edor_setting; dmaj_setting])]).
Proof.
  split.
  - refine (proj1 (@other_exceptions_end_the_program (unavailable_world [])
                     [lit "tunes.py"; lit "drowsy"] (lit "drowsy") [] [] _ 0 0
                     (HTTPError 503) (requeries_none _ _ _) _) eq_refl).
    intros q' Habs. discriminate Habs.
  - refine (proj2 (@other_exceptions_end_the_program
                     (session_world [(0%Z, lit "0:Cooley's");
                                     (0%Z, lit "-1:typed")])
                     [lit "tunes.py"; lit "drowsy"] (lit "drowsy") [] [] _ 0 0
                     (ValueError (lit "Must select a valid setting!"))
                     (requeries_none _ _ _) _) cooleys _ eq_refl eq_refl).
    intros q' Habs. discriminate Habs.
Defined.

(** ** No process without two selections *)

Lemma quiet_ret (A : Type) (a : A) : quiet (ret a).
Proof. intro tr. exists []. rewrite app_nil_r. auto. Qed.

Lemma quiet_lift (A : Type) (o : outcome A) : quiet (lift o).
Proof. intro tr. exists []. rewrite app_nil_r. auto. Qed.

Lemma quiet_raise_for_status (resp : Response) : quiet (raise_for_status resp).
Proof.
  intro tr. exists []. rewrite app_nil_r. unfold raise_for_status.
  destruct (_ && _)%bool; auto.
Qed.

Lemma quiet_get (w : World) (url : str) : quiet (get w url).
Proof. intro tr. exists [Get url]. auto. Qed.

Lemma quiet_html_fromstring (w : World) (markup : bytes) :
  quiet (html_fromstring w markup).
Proof. intro tr. exists [FromString markup]. auto. Qed.

Lemma quiet_run (w : World) (cmd : list str) (input : str) :
  quiet (run w cmd input).
Proof. intro tr. exists [Run cmd input]. auto. Qed.

Lemma quiet_bind (A B : Type) (c : M A) (k : A -> M B) :
  quiet c -> (forall a, quiet (k a)) -> quiet (bind c k).
Proof.
  unfold quiet. intros Hc Hk tr. destruct (Hc tr) as (e1 & E1 & S1).
  unfold bind.
  destruct (c tr) as [[a| e |] tr1]; cbn [snd] in E1; subst tr1;
    try solve [exists e1; auto].
  destruct (Hk a (tr ++ e1)) as (e2 & E2 & S2).
  exists (e1 ++ e2). rewrite E2, app_assoc, existsb_app, S1, S2. auto.
Qed.

Lemma quiet_try (A : Type) (c : M A) (h : str -> M A) :
  quiet c -> (forall q, quiet (h q)) -> quiet (try_except_SearchException c h).
Proof.
  unfold quiet. intros Hc Hh tr. destruct (Hc tr) as (e1 & E1 & S1).
  unfold try_except_SearchException.
  destruct (c tr) as [[a| e |] tr1]; cbn [snd] in E1; subst tr1;
    try solve [exists e1; auto].
  destruct e as [ | | |q| ]; try solve [exists e1; auto].
  destruct (Hh q (tr ++ e1)) as (e2 & E2 & S2).
  exists (e1 ++ e2). rewrite E2, app_assoc, existsb_app, S1, S2. auto.
Qed.

Lemma quiet_get_search_tunes (w : World) (q : str) : quiet (get_search_tunes w q).
Proof.
  unfold get_search_tunes.
  repeat (apply quiet_bind; intros);
    auto using quiet_get, quiet_raise_for_status, quiet_html_fromstring,
      quiet_ret.
Qed.

Lemma quiet_get_tune_settings (w : World) (tune_id : str) :
  quiet (get_tune_settings w tune_id).
Proof.
  unfold get_tune_settings.
  repeat (apply quiet_bind; intros);
    auto using quiet_get, quiet_raise_for_status, quiet_html_fromstring,
      quiet_lift.
Qed.

Lemma quiet_select_tune (w : World) (tunes : list Tune) :
  quiet (select_tune w tunes).
Proof.
  unfold select_tune. apply quiet_bind; intros;
    auto using quiet_run, quiet_lift.
Qed.

Lemma quiet_select_setting (w : World) (settings : list TuneSetting) :
  quiet (select_setting w settings).
Proof.
  unfold select_setting. apply quiet_bind; intros;
    auto using quiet_run, quiet_lift.
Qed.

Lemma quiet_search_loop (w : World) (fuel : nat) (q : str) :
  quiet (search_loop w fuel q).
Proof.
  revert q; induction fuel as [|fuel IH]; intro q; cbn [search_loop].
  - apply quiet_lift.
  - apply quiet_try; [|exact IH].
    apply quiet_bind; intros;
      auto using quiet_get_search_tunes, quiet_select_tune.
Qed.

(** X13. No process is started before a setting has been selected. The
    program is the search, the fetch of the tune page and the selection of
    a setting, followed by [display_abc] on the notation of the selected
    setting; the calls of the first part start no process other than the
    picker. So a run in which the search, a fetch or a selection ends
    with an exception, or which is still searching, ends there with no
    viewer and no converter started. *)
Theorem no_process_before_setting_is_selected (w : World) (fuel : nat)
  (argv : list str) (tr : list Event) :
  exists before,
    snd (select_setting_for w fuel (join (lit " ") (tl argv)) tr) = tr ++ before /\
    existsb spawns before = false /\
    (forall setting,
       fst (select_setting_for w fuel (join (lit " ") (tl argv)) tr)
       = Return setting ->
       main w fuel argv tr
       = display_abc w (setting_abc setting) (tr ++ before)) /\
    (forall e,
       fst (select_setting_for w fuel (join (lit " ") (tl argv)) tr) = Raise e ->
       main w fuel argv tr = (Raise e, tr ++ before)) /\
    (fst (select_setting_for w fuel (join (lit " ") (tl argv)) tr) = Pending ->
     main w fuel argv tr = (Pending, tr ++ before)).
Proof.
  set (q := join (lit " ") (tl argv)).
  assert (Hpre : quiet (select_setting_for w fuel q)).
  { unfold select_setting_for.
    apply quiet_bind; [apply quiet_search_loop|]. intro tune.
    apply quiet_bind; [apply quiet_get_tune_settings|]. intro settings.
    apply quiet_select_setting. }
  unfold quiet in Hpre. destruct (Hpre tr) as (before & E & S).
  exists before. split; [exact E|]. split; [exact S|].
  revert E. unfold main, search_and_display, select_setting_for, bind.
  fold q.
  destruct (search_loop w fuel q tr) as [[tune| e |] tr1];
    try solve [cbn [fst snd]; intros ->;
               repeat split; intros; try discriminate; congruence].
  destruct (get_tune_settings w (tune_id tune) tr1) as [[settings| e |] tr2];
    try solve [cbn [fst snd]; intros ->;
               repeat split; intros; try discriminate; congruence].
  destruct (select_setting w settings tr2) as [[setting| e |] tr3];
    cbn [fst snd]; intros ->;
    repeat split; intros; try discriminate; congruence.
Qed.

(** ** Settings without headers, replies without index *)

(** X14. A block that yields a setting and has no line with X, M or K
    before its first colon is rendered in the menu as the marker followed
    by [(None) None None]: the menu lines of all such settings are the
    same. *)
Theorem headerless_setting_menu_line (text : str) (setting : TuneSetting) :
  parse_setting text = Return setting ->
  Forall (fun line =>
            before_first_colon line <> lit "X" /\
            before_first_colon line <> lit "M" /\
            before_first_colon line <> lit "K") (split NL text) ->
  format_setting setting = SETTING_PREFIX ++ lit " (None) None None".
Proof.
  intros H Hall. unfold parse_setting in H.
  destruct (scan_lines (split NL text) scan_init) as [st| |] eqn:E;
    cbn [obind] in H; try discriminate.
  inversion H; subst setting; clear H.
  destruct (scan_lines_absent _ _ E) as (Hi & Hm & Hk). cbn in Hi, Hm, Hk.
  rewrite Forall_forall in Hall.
  assert (Ei : s_id st = None).
  { apply Hi. split; [reflexivity|]. apply Forall_forall.
    intros line Hin. apply (Hall line Hin). }
  assert (Em : s_meter st = None).
  { apply Hm. split; [reflexivity|]. apply Forall_forall.
    intros line Hin. apply (Hall line Hin). }
  assert (Ek : s_key st = None).
  { apply Hk. split; [reflexivity|]. apply Forall_forall.
    intros line Hin. apply (Hall line Hin). }
  unfold format_setting. cbn [setting_id setting_meter setting_key].
  rewrite Ei, Em, Ek. reflexivity.
Qed.

Lemma headerless_setting_menu_line_witness :
  format_setting
    (mkTuneSetting None None None (lit "A B c d|" ++ [NL] ++ lit "d c B A|"))
  = SETTING_PREFIX ++ lit " (None) None None".
Proof.
  apply (headerless_setting_menu_line
           (lit "A B c d|" ++ [NL; NL] ++ lit "d c B A|")); [reflexivity|].
  repeat constructor; intro Habs; cbv in Habs; discriminate Habs.
Defined.

(** X15. Replies the protocol does not foresee, with exit code 0. If the
    text before the first colon is not an integer for [int], [select_tune]
    and [select_setting] raise [ValueError]. A reply without a colon
    never starts a new search: [select_tune] does not raise
    [SearchException] on it; on the numeral of a negative index alone it
    raises [IndexError], while [select_setting] raises its own
    [ValueError]. *)
Theorem unforeseen_replies_raise (w : World) (tr : list Event)
  (tunes : list Tune) (settings : list TuneSetting) (stdout : str) :
  subprocess_run w tr tune_rofi_command (_format_tunes tunes) = (0%Z, stdout) ->
  subprocess_run w tr setting_rofi_command (_format_settings settings)
  = (0%Z, stdout) ->
  (int (before_first_colon stdout) = None ->
   (exists msg, fst (select_tune w tunes tr) = Raise (ValueError msg)) /\
   (exists msg, fst (select_setting w settings tr) = Raise (ValueError msg))) /\
  (~ In COLON stdout ->
   forall q, fst (select_tune w tunes tr) <> Raise (SearchException q)) /\
  (forall k,
     stdout = Z_to_str k -> (k < 0)%Z ->
     fst (select_tune w tunes tr) = Raise IndexError /\
     fst (select_setting w settings tr)
     = Raise (ValueError (lit "Must select a valid setting!"))).
Proof.
  intros Ht Hs. rewrite select_tune_run, select_setting_run, Ht, Hs.
  cbn [fst snd]. unfold decode_tune, decode_setting, before_first_colon.
  cbn [Z.eqb negb]. split; [|split].
  - intro Hint. pose proof (split_not_nil COLON stdout) as Hn.
    destruct (split COLON stdout) as [|s0 t]; [congruence|].
    rewrite subscript_head. cbn [obind hd] in *. unfold int_of.
    rewrite Hint. cbn [obind]. eauto.
  - intros Hc q. rewrite (@split_no_sep COLON stdout Hc).
    rewrite subscript_head. cbn [obind]. unfold int_of.
    destruct (int stdout) as [k|]; cbn [obind]; [|discriminate].
    destruct (k <? 0)%Z; [cbn; discriminate|].
    unfold subscript. destruct (getitem tunes k); discriminate.
  - intros k -> Hk.
    rewrite (@split_no_sep COLON (Z_to_str k)
               (numeral_char_not_colon (Z_to_str_chars k))).
    rewrite subscript_head. cbn [obind]. rewrite int_of_numeral.
    cbn [obind]. destruct (Z.ltb_spec k 0); [|lia].
    split; reflexivity.
Qed.

Lemma unforeseen_replies_raise_witness :
  (exists msg,
     fst (select_tune (session_world [(0%Z, lit "maggie")])
            [cooleys; drowsy_maggie] []) = Raise (ValueError msg)) /\
  fst (select_tune (session_world [(0%Z, lit "-1")])
         [cooleys; drowsy_maggie] []) = Raise IndexError.
Proof.
  split.
  - refine (proj1 (proj1 (@unforeseen_replies_raise
                            (session_world [(0%Z, lit "maggie")]) []
                            [cooleys; drowsy_maggie]
                            [edor_setting; dmaj_setting] (lit "maggie")
                            eq_refl eq_refl) eq_refl)).
  - refine (proj1 (proj2 (proj2 (@unforeseen_replies_raise
                                   (session_world [(0%Z, lit "-1")]) []
                                   [cooleys; drowsy_maggie]
                                   [edor_setting; dmaj_setting] (lit "-1")
                                   eq_refl eq_refl)) (-1)%Z eq_refl _)).
    lia.
Defined.

(** The two replies on which the ASCII reading of [int] would go wrong:
    a file separator before the index is a [ValueError], and an
    Arabic-Indic one selects the second tune. *)
Example replies_with_unusual_characters :
  decode_tune [cooleys; drowsy_maggie] 0 (28%N :: lit "-1")
  = Raise (ValueError (lit "invalid literal for int() with base 10")) /\
  decode_tune [cooleys; drowsy_maggie] 0 (1633%N :: lit ":x")
  = Return drowsy_maggie.
Proof. split; reflexivity. Qed.
